(** * ai-werewolf: the game-watch reconstruction layer

    A shallow embedding of
      - [frontend/src/services/websocket.ts]: the [GameWebSocket] transport and
        the event reducer inside the [useGameWebSocket] hook;
      - the log grouping utility [groupLogsByRound].

    Conventions.
      - A JavaScript number that the program uses as an identifier, a round or
        a counter is an integer of [Z].  Non-integral numbers and NaN are
        outside the model.
      - The [players] object (a JS object used as a dictionary with string
        keys) is a [gmap string PlayerInfo.t].
      - Arrays are lists; [thinkingPlayers] keeps the order the program gives
        it.
      - Each TypeScript interface is a record in a module of the same name, so
        the field names of the source are kept. *)

From stdpp Require Import gmap strings list fin_maps pretty.
From stdpp Require Import sorting.
From Stdlib Require Import ZArith Lia.

Local Open Scope string_scope.
Local Open Scope list_scope.
Local Open Scope Z_scope.

(** ** JavaScript values *)

Set Warnings "-register-all".

(** The part of a decoded JSON value the program can observe.  It is used where
    the source types a payload as [unknown]. *)
Inductive Json : Type :=
| JUndefined
| JNull
| JBool (b : bool)
| JNumber (n : Z)
| JString (s : string)
| JArray (items : list Json)
| JObject (fields : list (string * Json)).

(** [find_field k fs]: the value stored under key [k]. *)
Fixpoint find_field (k : string) (fs : list (string * Json)) : Json :=
  match fs with
  | [] => JUndefined
  | (k', v) :: rest => if String.eqb k k' then v else find_field k rest
  end.

(** [d.k] for a [d] typed [Record<string, unknown>]: a property read on a
    value that is not an object yields [undefined].  (On [null] and
    [undefined] the read throws; the [try] of the transport's [onmessage]
    swallows the exception, and no typed update follows either.)  The keys of
    a decoded object are distinct. *)
Definition prop (d : Json) (k : string) : Json :=
  match d with
  | JObject fs => find_field k fs
  | _ => JUndefined
  end.

(** [n || d] on numbers: [undefined] and [0] are falsy. *)
Definition num_or (n : option Z) (d : Z) : Z :=
  match n with
  | Some r => if r =? 0 then d else r
  | None => d
  end.

(** [String(n)] for an integer [n]: its decimal numeral (JavaScript prints
    an exponent from 10^21 on; identifiers are far below). *)
Definition String_of (n : Z) : string := pretty n.

(** [++r.current] on a JS number: exact below 2^53, where the double
    [2^53 + 1] no longer exists and the sum rounds back to [2^53]. *)
Definition MAX_EXACT : Z := 2 ^ 53.

Definition pre_incr (n : Z) : Z := if n <? MAX_EXACT then n + 1 else n.

(** ** Event payloads *)

Module PhaseChangeData.
(** [round] is declared a number; [groupLogsByRound] reads it as optional and
    the reducer guards it with [||], so absence is representable. *)
Record t := mk { phase : string; round : option Z }.
End PhaseChangeData.

Module NightActionData.
(** The interface has an index signature; every field other than [channel]
    and [player_id] travels in [rest]. *)
Record t := mk {
  channel : string;
  player_id : option Z;
  rest : list (string * Json)
}.
End NightActionData.

Module SpeechData.
Record t := mk {
  player_id : Z;
  content : string;
  is_last_words : option bool;
  is_explode : option bool;
  ai_notes : option string;
  _parse_level : option Z
}.
End SpeechData.

Module VoteData.
Record t := mk { votes : gmap Z Z; counts : gmap Z Z }.
End VoteData.

Module DeathData.
Record t := mk { player_id : Z; cause : string; shooter : option Z }.
End DeathData.

Module JudgeNarrationData.
Record t := mk { text : string; deaths : option (list Z) }.
End JudgeNarrationData.

Module AIThinkingData.
Record t := mk {
  player_id : option Z;
  player_ids : option (list Z);
  phase : string
}.
End AIThinkingData.

Module GameEndData.
Record t := mk { winner : string; round : Z }.
End GameEndData.

Module GameControlData.
Record t := mk { action : string }.
End GameControlData.

Module GameErrorData.
Record t := mk { message : string }.
End GameErrorData.

Module WolfDiscussionData.
Record t := mk {
  discussion_round : Z;
  wolf_id : Z;
  target : Z;
  speech : string;
  ai_notes : option string
}.
End WolfDiscussionData.

Module VoteCastData.
Record t := mk { voter_id : Z; target : option Z }.
End VoteCastData.

(** The union [GameEvent].  [other] stands for a decoded message whose [type]
    is none of the declared tags: [JSON.parse] does not reject it. *)
Inductive GameEvent : Type :=
| phase_change (data : PhaseChangeData.t)
| night_action (data : NightActionData.t)
| wolf_discussion (data : WolfDiscussionData.t)
| speech (data : SpeechData.t)
| vote (data : VoteData.t)
| vote_cast (data : VoteCastData.t)
| death (data : DeathData.t)
| judge_narration (data : JudgeNarrationData.t)
| ai_thinking (data : AIThinkingData.t)
| game_end (data : GameEndData.t)
| control (data : GameControlData.t)
| error (data : GameErrorData.t)
| sheriff_election (data : Json)
| other (type : string) (data : Json).

(** [event.type] *)
Definition event_type (e : GameEvent) : string :=
  match e with
  | phase_change _ => "game.phase_change"
  | night_action _ => "game.night_action"
  | wolf_discussion _ => "game.wolf_discussion"
  | speech _ => "game.speech"
  | vote _ => "game.vote"
  | vote_cast _ => "game.vote_cast"
  | death _ => "game.death"
  | judge_narration _ => "game.judge_narration"
  | ai_thinking _ => "game.ai_thinking"
  | game_end _ => "game.end"
  | control _ => "game.control"
  | error _ => "game.error"
  | sheriff_election _ => "game.sheriff_election"
  | other type _ => type
  end.

(** The [case] labels of the reducer's [switch]. *)
Definition reducer_cases : list string :=
  [ "game.phase_change"; "game.night_action"; "game.wolf_discussion";
    "game.ai_thinking"; "game.speech"; "game.vote_cast"; "game.death";
    "game.end"; "game.control"; "game.sheriff_election" ].

(** ** Log entries *)

Module GameLog.
(** [{ id, type, data, timestamp }].  [addLog] always stores the [type] and
    the [data] of one event, so the entry keeps them together as [event];
    [type] is recovered from it. *)
Record t := mk { id : Z; event : GameEvent; timestamp : Z }.

Definition type (l : t) : string := event_type (event l).
End GameLog.

(** ** The log grouping utility *)

Module RoundGroup.
Record t := mk {
  round : Z;
  nightLogs : list GameLog.t;
  dayLogs : list GameLog.t
}.
End RoundGroup.

Inductive PhaseTag : Type := night | day.

(** The local variables of [groupLogsByRound]. *)
Record Cursor := mkCursor {
  groups : list RoundGroup.t;
  currentRound : Z;
  currentPhase : PhaseTag;
  currentGroup : RoundGroup.t
}.

(** [g.nightLogs.length > 0 || g.dayLogs.length > 0] *)
Definition has_logs (g : RoundGroup.t) : bool :=
  negb (Nat.eqb (length (RoundGroup.nightLogs g)) 0)
  || negb (Nat.eqb (length (RoundGroup.dayLogs g)) 0).

(** [if (...) groups.push(g)] *)
Definition push_if_has_logs (gs : list RoundGroup.t) (g : RoundGroup.t)
  : list RoundGroup.t :=
  if has_logs g then gs ++ [g] else gs.

(** The recurring tail of the loop body: push [log] on the bucket that
    [currentPhase] names. *)
Definition push_current (c : Cursor) (log : GameLog.t) : Cursor :=
  let g := currentGroup c in
  match currentPhase c with
  | night =>
      mkCursor (groups c) (currentRound c) (currentPhase c)
        (RoundGroup.mk (RoundGroup.round g)
           (RoundGroup.nightLogs g ++ [log]) (RoundGroup.dayLogs g))
  | day =>
      mkCursor (groups c) (currentRound c) (currentPhase c)
        (RoundGroup.mk (RoundGroup.round g)
           (RoundGroup.nightLogs g) (RoundGroup.dayLogs g ++ [log]))
  end.

(** One iteration of [for (const log of logs)]. *)
Definition group_step (c : Cursor) (log : GameLog.t) : Cursor :=
  match GameLog.event log with
  | phase_change data =>
      if String.eqb (PhaseChangeData.phase data) "NIGHT_PHASE" then
        let newRound :=
          num_or (PhaseChangeData.round data) (currentRound c + 1) in
        mkCursor (push_if_has_logs (groups c) (currentGroup c))
          newRound night (RoundGroup.mk newRound [log] [])
      else if String.eqb (PhaseChangeData.phase data) "DAY_PHASE" then
        let g := currentGroup c in
        mkCursor (groups c) (currentRound c) day
          (RoundGroup.mk (RoundGroup.round g)
             (RoundGroup.nightLogs g) (RoundGroup.dayLogs g ++ [log]))
      else if String.eqb (PhaseChangeData.phase data) "GAME_END" then
        push_current c log
      else
        push_current c log
  | _ => push_current c log
  end.

Definition initial_cursor : Cursor :=
  mkCursor [] 0 day (RoundGroup.mk 0 [] []).

Definition groupLogsByRound (logs : list GameLog.t) : list RoundGroup.t :=
  match logs with
  | [] => []
  | _ =>
      let c := fold_left group_step logs initial_cursor in
      push_if_has_logs (groups c) (currentGroup c)
  end.

(** ** The snapshot *)

Module PlayerInfo.
Record t := mk {
  role : string;
  faction : string;
  is_alive : bool;
  is_sheriff : bool;
  llm_config_id : option Z
}.

(** [{ ...p, is_alive: false }] *)
Definition with_is_alive (b : bool) (p : t) : t :=
  mk (role p) (faction p) b (is_sheriff p) (llm_config_id p).

(** [{ ...p, is_sheriff: b }] *)
Definition with_is_sheriff (b : bool) (p : t) : t :=
  mk (role p) (faction p) (is_alive p) b (llm_config_id p).
End PlayerInfo.

Module GameUIState.
Record t := mk {
  phase : string;
  round : Z;
  winner : option string;
  paused : bool;
  thinkingPlayers : list Z;
  logs : list GameLog.t;
  nightActions : list NightActionData.t;
  players : gmap string PlayerInfo.t;
  sheriff : option Z
}.

(** The argument of [useState]. *)
Definition initial : t :=
  mk "GAME_START" 0 None false [] [] [] ∅ None.

(** [{ ...prev, f: v }] for the fields the reducer writes. *)
Definition with_thinkingPlayers (v : list Z) (s : t) : t :=
  mk (phase s) (round s) (winner s) (paused s) v (logs s)
     (nightActions s) (players s) (sheriff s).

Definition with_logs (v : list GameLog.t) (s : t) : t :=
  mk (phase s) (round s) (winner s) (paused s) (thinkingPlayers s) v
     (nightActions s) (players s) (sheriff s).

Definition with_nightActions (v : list NightActionData.t) (s : t) : t :=
  mk (phase s) (round s) (winner s) (paused s) (thinkingPlayers s) (logs s)
     v (players s) (sheriff s).

Definition with_players (v : gmap string PlayerInfo.t) (s : t) : t :=
  mk (phase s) (round s) (winner s) (paused s) (thinkingPlayers s) (logs s)
     (nightActions s) v (sheriff s).

Definition with_sheriff (v : option Z) (s : t) : t :=
  mk (phase s) (round s) (winner s) (paused s) (thinkingPlayers s) (logs s)
     (nightActions s) (players s) v.

Definition with_paused (v : bool) (s : t) : t :=
  mk (phase s) (round s) (winner s) v (thinkingPlayers s) (logs s)
     (nightActions s) (players s) (sheriff s).
End GameUIState.

Import GameUIState (thinkingPlayers, logs, nightActions, players, sheriff,
  with_thinkingPlayers, with_logs, with_nightActions, with_players,
  with_sheriff, with_paused).

(** The answer of [GET /api/games/:id/state], as far as the hook reads it. *)
Module GameStateSeed.
Record t := mk {
  current_phase : string;
  current_round : Z;
  winner : option string;
  players : option (gmap string PlayerInfo.t);
  sheriff : option Z
}.
End GameStateSeed.

(** The updater that seeds the snapshot from the fetched state; it is the
    only writer of the roster's keys. *)
Definition seed (data : GameStateSeed.t) (prev : GameUIState.t)
  : GameUIState.t :=
  GameUIState.mk
    (GameStateSeed.current_phase data)
    (GameStateSeed.current_round data)
    (GameStateSeed.winner data)
    (GameUIState.paused prev)
    (thinkingPlayers prev)
    (logs prev)
    (nightActions prev)
    (default ∅ (GameStateSeed.players data))
    (GameStateSeed.sheriff data).

(** ** The reducer *)

(** [xs.filter((id) => id !== pid)] *)
Definition without (pid : Z) (xs : list Z) : list Z :=
  filter (λ id, id ≠ pid) xs.

(** The same with a [pid] that may be [undefined]: no identifier is equal to
    [undefined], and the array is kept. *)
Definition without_opt (pid : option Z) (xs : list Z) : list Z :=
  match pid with
  | Some p => without p xs
  | None => xs
  end.

(** [new Set(xs)], as the list of its elements in insertion order. *)
Definition Set_add (acc : list Z) (x : Z) : list Z :=
  if decide (x ∈ acc) then acc else acc ++ [x].

Definition Set_from (xs : list Z) : list Z := fold_left Set_add xs [].

Definition sequentialPhases : list string :=
  [ "vote"; "discussion"; "last_words";
    "sheriff_register"; "sheriff_speech"; "sheriff_vote";
    "sheriff_adjust_order"; "hunter_shoot" ].

(** [arr.includes(s)] *)
Definition includes (arr : list string) (s : string) : bool :=
  existsb (String.eqb s) arr.

(** [ids] of the [game.ai_thinking] case: [player_ids] when given (an array
    is truthy, also when empty), else [player_id] when truthy. *)
Definition thinking_ids (data : AIThinkingData.t) : list Z :=
  match AIThinkingData.player_ids data with
  | Some ids => ids
  | None =>
      match AIThinkingData.player_id data with
      | Some pid => if pid =? 0 then [] else [pid]
      | None => []
      end
  end.

(** The loop that clears the sheriff mark of every player. *)
Definition clear_sheriff (p : PlayerInfo.t) : PlayerInfo.t :=
  if PlayerInfo.is_sheriff p then PlayerInfo.with_is_sheriff false p else p.

(** [if (updatedPlayers[sid]) updatedPlayers[sid] = {..., is_sheriff: true}] *)
Definition mark_sheriff (sid : string) (ps : gmap string PlayerInfo.t)
  : gmap string PlayerInfo.t :=
  match ps !! sid with
  | Some p => <[sid := PlayerInfo.with_is_sheriff true p]> ps
  | None => ps
  end.

(** The updater shared by the [elected] and [badge_transferred] branches. *)
Definition give_badge (n : Z) (prev : GameUIState.t) : GameUIState.t :=
  with_sheriff (Some n)
    (with_players (mark_sheriff (String_of n)
                     (clear_sheriff <$> players prev)) prev).

Definition destroy_badge (prev : GameUIState.t) : GameUIState.t :=
  with_sheriff None (with_players (clear_sheriff <$> players prev) prev).

(** [d.phase === s] *)
Definition phase_is (d : Json) (s : string) : bool :=
  match prop d "phase" with
  | JString p => String.eqb p s
  | _ => false
  end.

(** [typeof d.k === "number"], with the number *)
Definition number_prop (d : Json) (k : string) : option Z :=
  match prop d k with
  | JNumber n => Some n
  | _ => None
  end.

(** [if (d.phase === ph && typeof d[k] === "number") setState(upd d[k])] *)
Definition when_number (d : Json) (ph k : string)
    (upd : Z → GameUIState.t → GameUIState.t) (s : GameUIState.t)
  : GameUIState.t :=
  if phase_is d ph then
    match number_prop d k with
    | Some n => upd n s
    | None => s
    end
  else s.

(** The [game.sheriff_election] case: five guarded updates, in order. *)
Definition sheriff_election_case (d : Json) (s0 : GameUIState.t)
  : GameUIState.t :=
  let s1 := when_number d "register_decision" "player_id"
              (λ n prev, with_thinkingPlayers
                           (without n (thinkingPlayers prev)) prev) s0 in
  let s2 := when_number d "vote_cast" "voter_id"
              (λ n prev, with_thinkingPlayers
                           (without n (thinkingPlayers prev)) prev) s1 in
  let s3 := when_number d "elected" "sheriff_id" give_badge s2 in
  let s4 := when_number d "badge_transferred" "to" give_badge s3 in
  if phase_is d "badge_destroyed" then destroy_badge s4 else s4.

(** The record the [game.wolf_discussion] case appends to [nightActions]. *)
Definition wolf_night_action (data : WolfDiscussionData.t)
  : NightActionData.t :=
  NightActionData.mk "wolf_discussion"
    (Some (WolfDiscussionData.wolf_id data))
    [ ("target", JNumber (WolfDiscussionData.target data));
      ("discussion_round", JNumber (WolfDiscussionData.discussion_round data));
      ("speech", JString (WolfDiscussionData.speech data));
      ("ai_notes", match WolfDiscussionData.ai_notes data with
                   | Some s => JString s
                   | None => JUndefined
                   end) ].

(** The state updates of the [switch (event.type)]. *)
Definition reduce (e : GameEvent) (prev : GameUIState.t) : GameUIState.t :=
  match e with
  | phase_change data =>
      GameUIState.mk
        (PhaseChangeData.phase data)
        (num_or (PhaseChangeData.round data) (GameUIState.round prev))
        (GameUIState.winner prev)
        (GameUIState.paused prev)
        []
        (logs prev)
        (if String.eqb (PhaseChangeData.phase data) "NIGHT_PHASE"
         then [] else nightActions prev)
        (players prev)
        (sheriff prev)
  | night_action data =>
      with_thinkingPlayers
        (without_opt (NightActionData.player_id data) (thinkingPlayers prev))
        (with_nightActions (nightActions prev ++ [data]) prev)
  | wolf_discussion data =>
      with_thinkingPlayers
        (without (WolfDiscussionData.wolf_id data) (thinkingPlayers prev))
        (with_nightActions
           (nightActions prev ++ [wolf_night_action data]) prev)
  | ai_thinking data =>
      let ids := thinking_ids data in
      let isSequential :=
        includes sequentialPhases (AIThinkingData.phase data) in
      let newThinking :=
        if isSequential then ids
        else Set_from (thinkingPlayers prev ++ ids) in
      with_thinkingPlayers newThinking prev
  | speech data =>
      with_thinkingPlayers
        (without (SpeechData.player_id data) (thinkingPlayers prev)) prev
  | vote_cast data =>
      with_thinkingPlayers
        (without (VoteCastData.voter_id data) (thinkingPlayers prev)) prev
  | death data =>
      let pid := String_of (DeathData.player_id data) in
      match players prev !! pid with
      | None => prev
      | Some p =>
          with_thinkingPlayers
            (without (DeathData.player_id data) (thinkingPlayers prev))
            (with_players
               (<[pid := PlayerInfo.with_is_alive false p]> (players prev))
               prev)
      end
  | game_end data =>
      GameUIState.mk "GAME_END" (GameUIState.round prev)
        (Some (GameEndData.winner data)) (GameUIState.paused prev)
        (thinkingPlayers prev) (logs prev) (nightActions prev)
        (players prev) (sheriff prev)
  | control data =>
      with_paused (String.eqb (GameControlData.action data) "paused") prev
  | sheriff_election d => sheriff_election_case d prev
  | vote _ | judge_narration _ | error _ | other _ _ => prev
  end.

(** ** The hook: snapshot, log counter and fallback timers *)

(** [state], [logIdRef.current] and the keys of [thinkingTimersRef.current]
    (the actors that have a live fallback timer). *)
Record Session := mkSession {
  state : GameUIState.t;
  logIdRef : Z;
  thinkingTimersRef : gset Z
}.

Definition initial_session : Session :=
  mkSession GameUIState.initial 0 ∅.

(** [addLog(type, data)] at clock reading [now]; the updater is run once. *)
Definition addLog (now : Z) (e : GameEvent) (σ : Session) : Session :=
  let id := pre_incr (logIdRef σ) in
  mkSession
    (with_logs (logs (state σ) ++ [GameLog.mk id e now]) (state σ))
    id
    (thinkingTimersRef σ).

(** What the [switch] does to the timer registry. *)
Definition retime (e : GameEvent) (timers : gset Z) : gset Z :=
  match e with
  | night_action data =>
      match NightActionData.player_id data with
      | Some pid => timers ∖ {[pid]}
      | None => timers
      end
  | wolf_discussion data => timers ∖ {[WolfDiscussionData.wolf_id data]}
  | speech data => timers ∖ {[SpeechData.player_id data]}
  | vote_cast data => timers ∖ {[VoteCastData.voter_id data]}
  | ai_thinking data => timers ∪ list_to_set (thinking_ids data)
  | _ => timers
  end.

(** The handler given to [ws.onEvent]: [addLog], then the [switch]. *)
Definition onEvent (now : Z) (e : GameEvent) (σ : Session) : Session :=
  let σ1 := addLog now e σ in
  mkSession (reduce e (state σ1)) (logIdRef σ1)
    (retime e (thinkingTimersRef σ1)).

(** The callback of the 30 s fallback timer armed for [id]. *)
Definition timer_fired (id : Z) (σ : Session) : Session :=
  mkSession
    (with_thinkingPlayers (without id (thinkingPlayers (state σ))) (state σ))
    (logIdRef σ)
    (thinkingTimersRef σ ∖ {[id]}).

(** A received message: the event and the clock reading at its receipt. *)
Definition Arrival : Type := Z * GameEvent.

Definition receive (σ : Session) (a : Arrival) : Session :=
  onEvent a.1 a.2 σ.

(** The session after the messages [arrivals], in the order of arrival. *)
Definition run (arrivals : list Arrival) (σ : Session) : Session :=
  fold_left receive arrivals σ.

(** ** The transport *)

Inductive ConnectionStatus : Type :=
| connecting | connected | disconnected | reconnecting.

(** [readyState] of a browser WebSocket. *)
Inductive ReadyState : Type := CONNECTING | OPEN | CLOSING | CLOSED.

#[global] Instance ReadyState_eq_dec : EqDecision ReadyState.
Proof. solve_decision. Defined.

(** The fields of a [GameWebSocket].  Sockets, timers and handlers are named
    by natural numbers; a timer handle is never 0 (it is truthy). *)
Record GameWebSocket := mkGameWebSocket {
  ws : option nat;
  handlers : list nat;
  statusHandlers : list nat;
  reconnectTimer : option nat;
  manualClose : bool;
  gameId : string
}.

(** The transport together with the browser objects it created and the calls
    it made to its status handlers.
      - [sockets]: every [WebSocket] constructed, in order of construction;
      - [timers]: every timeout set, in order; [true] while it is pending;
        the handle of entry [i] is [S i];
      - [delivered]: every call [h(status)] made, in order;
      - [notified]: the argument of every call of [_notifyStatus], in order.
    Messages ([onmessage], [send]) are left out: they do not touch the
    status. *)
Record World := mkWorld {
  this : GameWebSocket;
  sockets : list ReadyState;
  timers : list bool;
  delivered : list (nat * ConnectionStatus);
  notified : list ConnectionStatus
}.

(** [new GameWebSocket(gameId)] *)
Definition new_GameWebSocket (gid : string) : World :=
  mkWorld (mkGameWebSocket None [] [] None false gid) [] [] [] [].

(** [_notifyStatus(status)] *)
Definition _notifyStatus (status : ConnectionStatus) (w : World) : World :=
  mkWorld (this w) (sockets w) (timers w)
    (delivered w ++ map (λ h, (h, status)) (statusHandlers (this w)))
    (notified w ++ [status]).

(** [onStatus(handler)] *)
Definition onStatus (h : nat) (w : World) : World :=
  let t := this w in
  mkWorld
    (mkGameWebSocket (ws t) (handlers t) (statusHandlers t ++ [h])
       (reconnectTimer t) (manualClose t) (gameId t))
    (sockets w) (timers w) (delivered w) (notified w).

(** [connect()]: the handlers it installs on the new socket are [on_open] and
    [on_close] below. *)
Definition connect (w : World) : World :=
  let t := this w in
  let w1 :=
    _notifyStatus connecting
      (mkWorld
         (mkGameWebSocket (ws t) (handlers t) (statusHandlers t)
            (reconnectTimer t) false (gameId t))
         (sockets w) (timers w) (delivered w) (notified w)) in
  let t1 := this w1 in
  mkWorld
    (mkGameWebSocket (Some (length (sockets w1))) (handlers t1)
       (statusHandlers t1) (reconnectTimer t1) (manualClose t1) (gameId t1))
    (sockets w1 ++ [CONNECTING]) (timers w1) (delivered w1) (notified w1).

(** [this.ws.onopen] *)
Definition on_open (w : World) : World := _notifyStatus connected w.

(** [this.ws.onclose] *)
Definition on_close (w : World) : World :=
  if manualClose (this w) then _notifyStatus disconnected w
  else
    let w1 := _notifyStatus reconnecting w in
    let t1 := this w1 in
    mkWorld
      (mkGameWebSocket (ws t1) (handlers t1) (statusHandlers t1)
         (Some (S (length (timers w1)))) (manualClose t1) (gameId t1))
      (sockets w1) (timers w1 ++ [true]) (delivered w1) (notified w1).

(** [clearTimeout(h)]: no effect on a handle that is not pending. *)
Definition clearTimeout (h : nat) (ts : list bool) : list bool :=
  match h with
  | O => ts
  | S i => <[i := false]> ts
  end.

(** [socket.close()]: starts the closing handshake; the [close] event is
    dispatched later, from the event loop. *)
Definition socket_close (k : nat) (ss : list ReadyState) : list ReadyState :=
  match ss !! k with
  | Some CONNECTING | Some OPEN => <[k := CLOSING]> ss
  | _ => ss
  end.

(** [disconnect()] *)
Definition disconnect (w : World) : World :=
  let t := this w in
  mkWorld
    (mkGameWebSocket None [] [] (reconnectTimer t) true (gameId t))
    (match ws t with
     | Some k => socket_close k (sockets w)
     | None => sockets w
     end)
    (match reconnectTimer t with
     | Some h => clearTimeout h (timers w)
     | None => timers w
     end)
    (delivered w) (notified w).

(** What can happen: a call of the client, or a task of the event loop. *)
Inductive Action : Type :=
| call_onStatus (h : nat)
| call_connect
| call_disconnect
| socket_opened (k : nat)
| socket_closed (k : nat)
| timeout_elapsed (h : nat)
| socket_closing (k : nat).

(** The tasks of the event loop, as opposed to the calls of the client. *)
Definition is_task (a : Action) : bool :=
  match a with
  | socket_opened _ | socket_closed _ | timeout_elapsed _
  | socket_closing _ => true
  | _ => false
  end.

(** One action; [None] when the browser cannot produce it (an [open] event on
    a socket that is not connecting, a [close] event on a closed socket, a
    timeout that is not pending, a closing handshake on a socket that is not
    open).  [socket_closing k]: the server starts the closing handshake on
    socket [k]; the browser sets its [readyState] to [CLOSING] and runs no
    handler until the [close] event. *)
Definition act (a : Action) (w : World) : option World :=
  match a with
  | call_onStatus h => Some (onStatus h w)
  | call_connect => Some (connect w)
  | call_disconnect => Some (disconnect w)
  | socket_opened k =>
      match sockets w !! k with
      | Some CONNECTING =>
          Some (on_open (mkWorld (this w) (<[k := OPEN]> (sockets w))
                           (timers w) (delivered w) (notified w)))
      | _ => None
      end
  | socket_closed k =>
      match sockets w !! k with
      | Some CLOSED | None => None
      | Some _ =>
          Some (on_close (mkWorld (this w) (<[k := CLOSED]> (sockets w))
                            (timers w) (delivered w) (notified w)))
      end
  | timeout_elapsed h =>
      match h with
      | O => None
      | S i =>
          match timers w !! i with
          | Some true =>
              Some (connect (mkWorld (this w) (sockets w)
                               (<[i := false]> (timers w))
                               (delivered w) (notified w)))
          | _ => None
          end
      end
  | socket_closing k =>
      match sockets w !! k with
      | Some OPEN =>
          Some (mkWorld (this w) (<[k := CLOSING]> (sockets w))
                  (timers w) (delivered w) (notified w))
      | _ => None
      end
  end.

Fixpoint acts (l : list Action) (w : World) : option World :=
  match l with
  | [] => Some w
  | a :: rest =>
      match act a w with
      | Some w' => acts rest w'
      | None => None
      end
  end.

(** The statuses handler [h] was called with, in order. *)
Definition observed_by (h : nat) (w : World) : list ConnectionStatus :=
  (filter (λ d, d.1 = h) (delivered w)).*2.

(** ** Notions the statements use *)

(** The events of a segment in reading order: night bucket, then day bucket. *)
Definition bucket_logs (g : RoundGroup.t) : list GameLog.t :=
  RoundGroup.nightLogs g ++ RoundGroup.dayLogs g.

(** [Some r] when [log] is a phase change to night; [r] is its [data.round]. *)
Definition night_payload (log : GameLog.t) : option (option Z) :=
  match GameLog.event log with
  | phase_change data =>
      if String.eqb (PhaseChangeData.phase data) "NIGHT_PHASE"
      then Some (PhaseChangeData.round data) else None
  | _ => None
  end.




(** The players that carry the sheriff mark, and how many they are. *)
Definition sheriff_holders (ps : gmap string PlayerInfo.t)
  : gmap string PlayerInfo.t :=
  filter (λ kp, PlayerInfo.is_sheriff kp.2 = true) ps.

Definition sheriff_count (ps : gmap string PlayerInfo.t) : nat :=
  size (sheriff_holders ps).

(** The log entries [addLog] makes for [arrivals] when the counter is [n]. *)
Fixpoint stamp (n : Z) (arrivals : list Arrival) : list GameLog.t :=
  match arrivals with
  | [] => []
  | a :: rest =>
      GameLog.mk (pre_incr n) a.2 a.1 :: stamp (pre_incr n) rest
  end.

(** The rounds (other than 0) the phase changes of [arrivals] carry. *)
Fixpoint announced_rounds (arrivals : list Arrival) : list Z :=
  match arrivals with
  | [] => []
  | (_, phase_change data) :: rest =>
      match PhaseChangeData.round data with
      | Some r => if r =? 0 then announced_rounds rest
                  else r :: announced_rounds rest
      | None => announced_rounds rest
      end
  | _ :: rest => announced_rounds rest
  end.

(** Everything the cursor holds, in reading order. *)
Definition cursor_logs (c : Cursor) : list GameLog.t :=
  concat (map bucket_logs (groups c)) ++ bucket_logs (currentGroup c).

(** While the cursor is in a night nothing is in the day bucket yet. *)
Definition night_before_day (c : Cursor) : Prop :=
  currentPhase c = night → RoundGroup.dayLogs (currentGroup c) = [].

(** The group under construction carries the cursor's round. *)
Definition round_in_step (c : Cursor) : Prop :=
  RoundGroup.round (currentGroup c) = currentRound c.

(** After [disconnect()]: the transport is marked closed by hand, nobody is
    subscribed to its status, and no timeout is pending. *)
Definition torn_down (w : World) : Prop :=
  manualClose (this w) = true
  ∧ statusHandlers (this w) = []
  ∧ Forall (λ pending, pending = false) (timers w).

(** Between [connect()] and [disconnect()]: the transport is not marked
    closed by hand; the only timeout that can be pending is the one
    [reconnectTimer] names, and while it is pending every socket is closed; at
    most one socket is not closed; no handler has been told [disconnected]. *)
Definition running (w : World) : Prop :=
  manualClose (this w) = false
  ∧ (∀ i, timers w !! i = Some true → reconnectTimer (this w) = Some (S i))
  ∧ (∀ i k st, timers w !! i = Some true → sockets w !! k = Some st →
               st = CLOSED)
  ∧ (∀ j k sj sk, sockets w !! j = Some sj → sockets w !! k = Some sk →
                  sj ≠ CLOSED → sk ≠ CLOSED → j = k)
  ∧ disconnected ∉ (delivered w).*2.

(** How the hook drives the transport: subscribe, connect, let the event loop
    run, disconnect on cleanup, while the event loop goes on. *)
Definition hook_usage (h : nat) (before after : list Action) : list Action :=
  (call_onStatus h :: call_connect :: before) ++ call_disconnect :: after.

(** ** Scenarios *)

(** A subscriber [h], then: connect, the socket opens, the connection drops,
    the retry delay elapses. *)
Definition reconnect_scenario (h : nat) : list Action :=
  [ call_onStatus h; call_connect; socket_opened 0; socket_closed 0;
    timeout_elapsed 1 ].

(** A subscriber [h], then: connect, the socket opens, [disconnect()] is
    called, the browser reports the socket closed. *)
Definition manual_close_scenario (h : nat) : list Action :=
  [ call_onStatus h; call_connect; socket_opened 0; call_disconnect;
    socket_closed 0 ].

Definition sample_log (e : GameEvent) : GameLog.t := GameLog.mk 1 e 0.

Definition sample_night_action (role : string) : GameEvent :=
  night_action (NightActionData.mk role None []).

Definition sample_speech (pid : Z) : GameEvent :=
  speech (SpeechData.mk pid "..." None None None None).

(** The log of the basic round scenario: night 1, a seer action, day 1, a
    speech of actor 3, night 2, a guard action. *)
Definition basic_rounds_log : list GameLog.t :=
  map sample_log
    [ phase_change (PhaseChangeData.mk "NIGHT_PHASE" (Some 1));
      sample_night_action "seer";
      phase_change (PhaseChangeData.mk "DAY_PHASE" (Some 1));
      sample_speech 3;
      phase_change (PhaseChangeData.mk "NIGHT_PHASE" (Some 2));
      sample_night_action "guard" ].


Definition sample_player (alive is_sheriff : bool) : PlayerInfo.t :=
  PlayerInfo.mk "villager" "good" alive is_sheriff None.

(** A session seeded with three players, actor 2 holding the badge, in which
    actor 7 has then been announced as thinking about a hunter shot. *)
Definition sample_seed : GameStateSeed.t :=
  GameStateSeed.mk "DAY_PHASE" 1 None
    (Some (<["2" := sample_player true true]>
             (<["7" := sample_player true false]>
                (<["9" := sample_player true false]> ∅))))
    (Some 2).

Definition sample_session : Session :=
  onEvent 0 (ai_thinking (AIThinkingData.mk (Some 7) None "hunter_shoot"))
    (mkSession (seed sample_seed GameUIState.initial) 0 ∅).

(** Two wolves thinking at once, from the initial session. *)
Definition wolves_session : Session :=
  onEvent 0
    (ai_thinking (AIThinkingData.mk None (Some [2; 9]) "wolf_discussion"))
    initial_session.

(** ** The event loop of the hook *)

(** What the hook reacts to: a message of the transport, or the expiry of the
    fallback timer armed for an actor. *)
Inductive Step : Type :=
| got (a : Arrival)
| timed_out (id : Z).

Definition step (σ : Session) (st : Step) : Session :=
  match st with
  | got a => receive σ a
  | timed_out id => timer_fired id σ
  end.

Definition steps (l : list Step) (σ : Session) : Session :=
  fold_left step l σ.

(** Every actor shown as thinking has a fallback timer pending. *)
Definition backed (σ : Session) : Prop :=
  ∀ id, id ∈ thinkingPlayers (state σ) → id ∈ thinkingTimersRef σ.

(** Every pending fallback timer expires, in the order [ids]. *)
Definition expire (ids : list Z) (σ : Session) : Session :=
  fold_left (λ σ' id, timer_fired id σ') ids σ.

(** ** Notions about the roster *)

(** Two records of one player: [role], [faction] and [llm_config_id] agree. *)
Definition same_identity (p q : PlayerInfo.t) : Prop :=
  PlayerInfo.role q = PlayerInfo.role p
  ∧ PlayerInfo.faction q = PlayerInfo.faction p
  ∧ PlayerInfo.llm_config_id q = PlayerInfo.llm_config_id p.

(** What an entry of the roster may become: it stays absent, or it stays the
    record of the same player. *)
Definition player_kept (o o' : option PlayerInfo.t) : Prop :=
  match o, o' with
  | None, None => True
  | Some p, Some p' => same_identity p p'
  | _, _ => False
  end.

(** [e] is a death event for the player stored under key [k]. *)
Definition is_death_of (k : string) (e : GameEvent) : bool :=
  match e with
  | death data => bool_decide (String_of (DeathData.player_id data) = k)
  | _ => false
  end.

(** Every player who carries the sheriff mark is the one [sheriff] names. *)
Definition marks_agree (s : GameUIState.t) : Prop :=
  ∀ k p,
    players s !! k = Some p → PlayerInfo.is_sheriff p = true →
    ∃ n, sheriff s = Some n ∧ k = String_of n.

Definition is_game_end (e : GameEvent) : bool :=
  match e with game_end _ => true | _ => false end.

Definition is_control (e : GameEvent) : bool :=
  match e with control _ => true | _ => false end.

(** ** The player panel *)

(** [isSheriff] of the card of player [pid]:
    [player?.is_sheriff || sheriff === pid]. *)
Definition card_isSheriff (s : GameUIState.t) (pid : Z) : bool :=
  match players s !! String_of pid with
  | Some p => PlayerInfo.is_sheriff p
  | None => false
  end
  || match sheriff s with
     | Some n => n =? pid
     | None => false
     end.

(** [isAlive] of the card: [player?.is_alive ?? true]. *)
Definition card_isAlive (s : GameUIState.t) (pid : Z) : bool :=
  match players s !! String_of pid with
  | Some p => PlayerInfo.is_alive p
  | None => true
  end.

(** [deadPlayers] of the watch page: the payloads of the [game.death]
    entries of the log, in order. *)
Definition deadPlayers (logs : list GameLog.t) : list DeathData.t :=
  omap (λ l, match GameLog.event l with
             | death data => Some data
             | _ => None
             end) logs.

(** [deadMap]: [new Map(deadPlayers.map((d) => [d.player_id, d]))]; a later
    entry for a player replaces an earlier one. *)
Definition deadMap (ds : list DeathData.t) : gmap Z DeathData.t :=
  fold_left (λ m d, <[DeathData.player_id d := d]> m) ds ∅.

(** ** The timeline panel *)

(** [extractNightActions(nightLogs)]: keep the [game.night_action] and
    [game.wolf_discussion] entries, the latter rewritten as night actions
    (one pass here for the [filter] and the [map] of the source). *)
Definition extractNightActions (nightLogs : list GameLog.t)
  : list NightActionData.t :=
  omap (λ l, match GameLog.event l with
             | night_action data => Some data
             | wolf_discussion data => Some (wolf_night_action data)
             | _ => None
             end) nightLogs.

(** [roundActions]: [map[group.round] = extractNightActions(group.nightLogs)]
    for every group, in order. *)
Definition roundActions (roundGroups : list RoundGroup.t)
  : gmap Z (list NightActionData.t) :=
  fold_left
    (λ m group,
       <[RoundGroup.round group
         := extractNightActions (RoundGroup.nightLogs group)]> m)
    roundGroups ∅.

(** The updater of [openKeys]:
    [prev.includes(lastKey) ? prev : [...prev, lastKey]]. *)
Definition open_last (lastKey : string) (prev : list string) : list string :=
  if includes prev lastKey then prev else prev ++ [lastKey].

(** ** Notions about the log *)

Definition is_night (log : GameLog.t) : bool :=
  match night_payload log with Some _ => true | None => false end.

(** [log] is a phase change to day. *)
Definition is_day_change (log : GameLog.t) : bool :=
  match GameLog.event log with
  | phase_change data => String.eqb (PhaseChangeData.phase data) "DAY_PHASE"
  | _ => false
  end.

(** The entries that follow the last phase change to night (all of them when
    there is none). *)
Definition since_last_night (L : list GameLog.t) : list GameLog.t :=
  fold_left (λ acc log, if is_night log then [] else acc ++ [log]) L [].

(** The snapshot's night actions are those of the log since the last night
    began. *)
Definition night_actions_in_step (s : GameUIState.t) : Prop :=
  nightActions s = extractNightActions (since_last_night (logs s)).

(** A segment that a phase change to night opened. *)
Definition opened_by_night (g : RoundGroup.t) : Prop :=
  ∃ log rest,
    RoundGroup.nightLogs g = log :: rest
    ∧ is_night log = true
    ∧ Forall (λ l, is_night l = false) rest.

(** No phase change sits in the bucket of the other phase. *)
Definition buckets_apart (g : RoundGroup.t) : Prop :=
  Forall (λ l, is_day_change l = false) (RoundGroup.nightLogs g)
  ∧ Forall (λ l, is_night l = false) (RoundGroup.dayLogs g).

(** ** The night panel's channels *)

(** Truthiness of a decoded value. *)
Definition truthy (v : Json) : bool :=
  match v with
  | JUndefined | JNull => false
  | JBool b => b
  | JNumber n => negb (n =? 0)
  | JString t => negb (String.eqb t "")
  | JArray _ | JObject _ => true
  end.

(** [a.detail], one of the fields that travel in [rest]. *)
Definition detail (a : NightActionData.t) : Json :=
  find_field "detail" (NightActionData.rest a).

(** The [key]s of [CHANNELS]. *)
Definition CHANNEL_keys : list string :=
  [ "guard"; "wolf"; "witch"; "seer"; "resolve" ].

(** [getChannelActions(actions, channel)] *)
Definition getChannelActions (actions : list NightActionData.t)
    (channel : string) : list NightActionData.t :=
  if String.eqb channel "resolve" then
    List.filter
      (λ a, String.eqb (NightActionData.channel a) ""
            || String.eqb (NightActionData.channel a) "resolve"
            || truthy (detail a))
      actions
  else if String.eqb channel "wolf" then
    List.filter
      (λ a, String.eqb (NightActionData.channel a) "wolf"
            || String.eqb (NightActionData.channel a) "wolf_discussion")
      actions
  else
    List.filter (λ a, String.eqb (NightActionData.channel a) channel) actions.

(** ** Tokens and request headers *)

Definition TOKEN_KEY : string := "werewolf_token".
Definition USER_KEY : string := "werewolf_user".

(** [localStorage] is a [gmap string string]: [getItem] is the lookup,
    [setItem] the insertion, [removeItem] the deletion. *)

Definition getToken (ls : gmap string string) : option string :=
  ls !! TOKEN_KEY.

Definition setToken (token : string) (ls : gmap string string)
  : gmap string string :=
  <[TOKEN_KEY := token]> ls.

Definition removeToken (ls : gmap string string) : gmap string string :=
  delete TOKEN_KEY ls.

Definition removeUser (ls : gmap string string) : gmap string string :=
  delete USER_KEY ls.

(** [!!getToken()]: an empty token is falsy. *)
Definition isAuthenticated (ls : gmap string string) : bool :=
  match getToken ls with
  | Some token => negb (String.eqb token "")
  | None => false
  end.

Definition logout (ls : gmap string string) : gmap string string :=
  removeUser (removeToken ls).

Section UserInfo.

(** [JSON.parse]: the decoded value, or [None] when it throws. *)
Variable JSON_parse : string → option Json.

(** [getUser()]: [null] when nothing (or the empty string) is stored or the
    stored text does not parse. *)
Definition getUser (ls : gmap string string) : Json :=
  match ls !! USER_KEY with
  | None => JNull
  | Some raw =>
      if String.eqb raw "" then JNull
      else match JSON_parse raw with
           | Some v => v
           | None => JNull
           end
  end.

End UserInfo.

(** The [headers] that [request] gives to [fetch]: the content type, the
    bearer token when there is one, and over them the caller's own. *)
Definition request_headers (ls : gmap string string)
    (options_headers : option (gmap string string)) : gmap string string :=
  let token := getToken ls in
  let headers : gmap string string :=
    match token with
    | Some t =>
        if String.eqb t "" then ∅
        else {["Authorization" := "Bearer " +:+ t]}
    | None => ∅
    end ∪ {["Content-Type" := "application/json"]} in
  default ∅ options_headers ∪ headers.

(** ** Unsubscribing *)

(** The function [onStatus(handler)] returns: it drops every registration
    of [handler]. *)
Definition offStatus (h : nat) (w : World) : World :=
  let t := this w in
  mkWorld
    (mkGameWebSocket (ws t) (handlers t)
       (filter (λ x, x ≠ h) (statusHandlers t))
       (reconnectTimer t) (manualClose t) (gameId t))
    (sockets w) (timers w) (delivered w) (notified w).

(** ** Sending, and the order of the statuses *)

(** [send(type, data)]: the socket the frame goes out on, with the frame, or
    [None] when [this.ws?.readyState === WebSocket.OPEN] fails and nothing is
    sent. *)
Definition send (type : string) (data : Json) (w : World)
  : option (nat * (string * Json)) :=
  match ws (this w) with
  | Some k =>
      match sockets w !! k with
      | Some OPEN => Some (k, (type, data))
      | _ => None
      end
  | None => None
  end.

(** [pause()] and [resume()] *)
Definition pause (w : World) : option (nat * (string * Json)) :=
  send "game.pause" JUndefined w.

Definition resume (w : World) : option (nat * (string * Json)) :=
  send "game.resume" JUndefined w.

(** The steps from one status to the next that the handlers of [connect]
    make. *)
Definition follows (a b : ConnectionStatus) : bool :=
  match a, b with
  | connecting, connected
  | connecting, reconnecting
  | connected, reconnecting
  | reconnecting, connecting => true
  | _, _ => false
  end.

(** Each status of [l] follows the one before it. *)
Fixpoint chained (l : list ConnectionStatus) : bool :=
  match l with
  | a :: rest =>
      match rest with
      | b :: _ => follows a b && chained rest
      | [] => true
      end
  | [] => true
  end.

(** The last status notified tells the state of the connection; a socket that
    was reported open may since have begun closing. *)
Definition status_matches (w : World) : Prop :=
  match last (notified w) with
  | Some connecting =>
      ∃ k, ws (this w) = Some k ∧ sockets w !! k = Some CONNECTING
  | Some connected =>
      ∃ k, ws (this w) = Some k
           ∧ (sockets w !! k = Some OPEN ∨ sockets w !! k = Some CLOSING)
  | Some reconnecting =>
      ∀ k st, sockets w !! k = Some st → st = CLOSED
  | Some disconnected | None => False
  end.

(** The one subscriber [h] has been told every status notified. *)
Definition told (h : nat) (w : World) : Prop :=
  statusHandlers (this w) = [h]
  ∧ delivered w = map (λ status, (h, status)) (notified w).

(** What the loop of [groupLogsByRound] keeps true of its cursor: the buckets
    of every group are apart; every pushed group but the first was opened by
    a night, and the first was or has no night bucket; the group under
    construction was opened by a night, unless it is the initial one, still
    without a night bucket and in its day. *)
Definition shaped (c : Cursor) : Prop :=
  Forall buckets_apart (groups c)
  ∧ buckets_apart (currentGroup c)
  ∧ Forall opened_by_night (tail (groups c))
  ∧ (∀ g, head (groups c) = Some g →
          opened_by_night g ∨ RoundGroup.nightLogs g = [])
  ∧ (opened_by_night (currentGroup c)
     ∨ (groups c = [] ∧ RoundGroup.nightLogs (currentGroup c) = []
        ∧ currentPhase c = day)).

(** * Properties of the log grouping utility *)

Section Grouping.

Implicit Types (c : Cursor) (log : GameLog.t) (g : RoundGroup.t).
Implicit Types (L : list GameLog.t) (gs : list RoundGroup.t).

Lemma has_logs_false g : has_logs g = false → bucket_logs g = [].
Proof.
  unfold has_logs, bucket_logs.
  destruct (RoundGroup.nightLogs g), (RoundGroup.dayLogs g); simpl; congruence.
Qed.

Lemma has_logs_true g : has_logs g = true → bucket_logs g ≠ [].
Proof.
  unfold has_logs, bucket_logs.
  destruct (RoundGroup.nightLogs g), (RoundGroup.dayLogs g); simpl; congruence.
Qed.

Lemma has_logs_snoc_night r ns ds log :
  has_logs (RoundGroup.mk r (ns ++ [log]) ds) = true.
Proof. unfold has_logs; simpl. rewrite length_app; simpl.
       replace (length ns + 1)%nat with (S (length ns)) by lia. reflexivity. Qed.

Lemma has_logs_snoc_day r ns ds log :
  has_logs (RoundGroup.mk r ns (ds ++ [log])) = true.
Proof. unfold has_logs; simpl. rewrite length_app; simpl.
       replace (length ds + 1)%nat with (S (length ds)) by lia.
       apply orb_true_r. Qed.

Lemma push_if_has_logs_flat gs g :
  concat (map bucket_logs (push_if_has_logs gs g))
  = concat (map bucket_logs gs) ++ bucket_logs g.
Proof.
  unfold push_if_has_logs. destruct (has_logs g) eqn:E.
  - rewrite map_app, concat_app. simpl. now rewrite app_nil_r.
  - rewrite (has_logs_false _ E). now rewrite app_nil_r.
Qed.

Lemma push_if_has_logs_nonempty gs g :
  Forall (λ g', bucket_logs g' ≠ []) gs →
  Forall (λ g', bucket_logs g' ≠ []) (push_if_has_logs gs g).
Proof.
  intros H. unfold push_if_has_logs. destruct (has_logs g) eqn:E; [|exact H].
  apply Forall_app; split; [exact H|].
  constructor; [now apply has_logs_true | constructor].
Qed.

Lemma push_current_logs c log :
  night_before_day c →
  cursor_logs (push_current c log) = cursor_logs c ++ [log]
  ∧ night_before_day (push_current c log).
Proof.
  unfold night_before_day, push_current, cursor_logs, bucket_logs.
  intros H. destruct (currentPhase c) eqn:E; simpl.
  - rewrite (H eq_refl). rewrite !app_nil_r, app_assoc. auto.
  - split; [|discriminate]. now rewrite !app_assoc.
Qed.

Lemma group_step_logs c log :
  night_before_day c →
  cursor_logs (group_step c log) = cursor_logs c ++ [log]
  ∧ night_before_day (group_step c log).
Proof.
  intros H. unfold group_step.
  destruct (GameLog.event log) as [d| | | | | | | | | | | | |];
    try (now apply push_current_logs).
  destruct (String.eqb (PhaseChangeData.phase d) "NIGHT_PHASE").
  { unfold cursor_logs, night_before_day; simpl.
    rewrite push_if_has_logs_flat. auto. }
  destruct (String.eqb (PhaseChangeData.phase d) "DAY_PHASE").
  { unfold cursor_logs, night_before_day, bucket_logs; simpl.
    split; [|discriminate]. now rewrite !app_assoc. }
  destruct (String.eqb (PhaseChangeData.phase d) "GAME_END");
    now apply push_current_logs.
Qed.

Lemma fold_group_step_logs L c :
  night_before_day c →
  cursor_logs (fold_left group_step L c) = cursor_logs c ++ L.
Proof.
  revert c. induction L as [|log L IH]; intros c H; simpl.
  - now rewrite app_nil_r.
  - destruct (group_step_logs c log H) as [E H'].
    rewrite (IH _ H'), E, <- app_assoc. reflexivity.
Qed.

Lemma push_current_groups c log :
  groups (push_current c log) = groups c.
Proof. unfold push_current. now destruct (currentPhase c). Qed.

Lemma group_step_nonempty c log :
  Forall (λ g, bucket_logs g ≠ []) (groups c) →
  Forall (λ g, bucket_logs g ≠ []) (groups (group_step c log)).
Proof.
  intros H. unfold group_step.
  destruct (GameLog.event log) as [d| | | | | | | | | | | | |];
    try (now rewrite push_current_groups).
  destruct (String.eqb (PhaseChangeData.phase d) "NIGHT_PHASE").
  { simpl. now apply push_if_has_logs_nonempty. }
  destruct (String.eqb (PhaseChangeData.phase d) "DAY_PHASE"); [exact H|].
  destruct (String.eqb (PhaseChangeData.phase d) "GAME_END");
    now rewrite push_current_groups.
Qed.

Lemma fold_group_step_nonempty L c :
  Forall (λ g, bucket_logs g ≠ []) (groups c) →
  Forall (λ g, bucket_logs g ≠ []) (groups (fold_left group_step L c)).
Proof.
  revert c. induction L as [|log L IH]; intros c H; simpl; [exact H|].
  apply IH. now apply group_step_nonempty.
Qed.

Lemma group_step_night c log r :
  night_payload log = Some r →
  group_step c log =
    mkCursor (push_if_has_logs (groups c) (currentGroup c))
      (num_or r (currentRound c + 1)) night
      (RoundGroup.mk (num_or r (currentRound c + 1)) [log] []).
Proof.
  unfold night_payload, group_step.
  destruct (GameLog.event log) as [d| | | | | | | | | | | | |]; try discriminate.
  destruct (String.eqb (PhaseChangeData.phase d) "NIGHT_PHASE"); [|discriminate].
  now intros [= <-].
Qed.

Lemma push_current_keeps c log :
  groups (push_current c log) = groups c
  ∧ currentRound (push_current c log) = currentRound c
  ∧ has_logs (currentGroup (push_current c log)) = true
  ∧ (round_in_step c → round_in_step (push_current c log)).
Proof.
  unfold push_current, round_in_step.
  destruct (currentPhase c); simpl;
    auto using has_logs_snoc_night, has_logs_snoc_day.
Qed.

Lemma group_step_not_night c log :
  night_payload log = None →
  groups (group_step c log) = groups c
  ∧ currentRound (group_step c log) = currentRound c
  ∧ has_logs (currentGroup (group_step c log)) = true
  ∧ (round_in_step c → round_in_step (group_step c log)).
Proof.
  unfold night_payload, group_step.
  destruct (GameLog.event log) as [d| | | | | | | | | | | | |];
    try (intros _; apply push_current_keeps).
  destruct (String.eqb (PhaseChangeData.phase d) "NIGHT_PHASE"); [discriminate|].
  intros _.
  destruct (String.eqb (PhaseChangeData.phase d) "DAY_PHASE").
  { unfold round_in_step; simpl. auto using has_logs_snoc_day. }
  destruct (String.eqb (PhaseChangeData.phase d) "GAME_END");
    apply push_current_keeps.
Qed.




(** C10.  Segmentation is a partition of its input: reading the segments of
    [groupLogsByRound L] in output order, each one's night events and then
    its day events, gives back exactly [L]; and no returned segment is
    empty. *)
Theorem groupLogsByRound_partition L :
  concat (map bucket_logs (groupLogsByRound L)) = L
  ∧ Forall (λ g, bucket_logs g ≠ []) (groupLogsByRound L).
Proof.
  unfold groupLogsByRound. destruct L as [|log L]; [split; [reflexivity|constructor]|].
  set (c := fold_left group_step (log :: L) initial_cursor). split.
  - rewrite push_if_has_logs_flat.
    change (cursor_logs c = log :: L). unfold c.
    rewrite fold_group_step_logs; [reflexivity | discriminate].
  - apply push_if_has_logs_nonempty. unfold c.
    apply fold_group_step_nonempty. constructor.
Qed.

End Grouping.

(** * Properties of the reducer *)

Section Reducer.

Implicit Types (σ : Session) (s prev : GameUIState.t) (e : GameEvent).
Implicit Types (now n a : Z) (d : Json) (arrivals : list Arrival).

(** ** Case analysis of the [game.sheriff_election] branch *)

Lemma when_number_cases (P : GameUIState.t → Prop) d ph k upd s :
  P s → (∀ n, P (upd n s)) → P (when_number d ph k upd s).
Proof.
  intros Hs Hu. unfold when_number.
  destruct (phase_is d ph); [|exact Hs].
  destruct (number_prop d k); [apply Hu | exact Hs].
Qed.

(** A property kept by each of the three kinds of update the branch can
    make is kept by the branch. *)
Lemma sheriff_election_case_keeps (P : GameUIState.t → Prop) d s :
  P s →
  (∀ n s', P s' →
     P (with_thinkingPlayers (without n (thinkingPlayers s')) s')) →
  (∀ n s', P s' → P (give_badge n s')) →
  (∀ s', P s' → P (destroy_badge s')) →
  P (sheriff_election_case d s).
Proof.
  intros Hs Ht Hg Hd. unfold sheriff_election_case.
  set (s1 := when_number d "register_decision" "player_id" _ s).
  set (s2 := when_number d "vote_cast" "voter_id" _ s1).
  set (s3 := when_number d "elected" "sheriff_id" _ s2).
  set (s4 := when_number d "badge_transferred" "to" _ s3).
  assert (P s1) as H1 by (apply when_number_cases; auto).
  assert (P s2) as H2 by (apply when_number_cases; auto).
  assert (P s3) as H3 by (apply when_number_cases; auto).
  assert (P s4) as H4 by (apply when_number_cases; auto).
  destruct (phase_is d "badge_destroyed"); auto.
Qed.

(** ** The log *)

Lemma reduce_logs e s : logs (reduce e s) = logs s.
Proof.
  destruct e; simpl; try reflexivity.
  - destruct (players s !! _); reflexivity.
  - apply (sheriff_election_case_keeps (λ s', logs s' = logs s));
      auto.
Qed.

Lemma onEvent_logs now e σ :
  logs (state (onEvent now e σ))
  = logs (state σ) ++ [GameLog.mk (pre_incr (logIdRef σ)) e now].
Proof. unfold onEvent. simpl. now rewrite reduce_logs. Qed.

Lemma onEvent_logIdRef now e σ :
  logIdRef (onEvent now e σ) = pre_incr (logIdRef σ).
Proof. reflexivity. Qed.

Lemma run_logs arrivals σ :
  logs (state (run arrivals σ))
  = logs (state σ) ++ stamp (logIdRef σ) arrivals.
Proof.
  revert σ. induction arrivals as [|[now e] arrivals IH]; intros σ; simpl.
  - now rewrite app_nil_r.
  - unfold run in IH. rewrite IH. unfold receive. cbn [fst snd].
    rewrite onEvent_logs, onEvent_logIdRef, <- app_assoc. reflexivity.
Qed.

Lemma stamp_events n arrivals :
  map GameLog.event (stamp n arrivals) = arrivals.*2.
Proof.
  revert n. induction arrivals as [|a arrivals IH]; intros n; simpl;
    [reflexivity | now rewrite IH].
Qed.

Lemma stamp_ids n arrivals :
  n + Z.of_nat (length arrivals) ≤ MAX_EXACT →
  map GameLog.id (stamp n arrivals)
  = map (λ i, n + 1 + Z.of_nat i) (seq 0 (length arrivals)).
Proof.
  revert n. induction arrivals as [|a arrivals IH]; intros n Hb;
    [reflexivity|].
  cbn [stamp length map seq GameLog.id].
  assert (pre_incr n = n + 1) as ->.
  { unfold pre_incr. cbn [length] in Hb.
    destruct (Z.ltb_spec n MAX_EXACT); lia. }
  f_equal; [lia|].
  rewrite IH; [|cbn [length] in Hb; lia].
  rewrite <- seq_shift, map_map. apply map_ext. intros i. lia.
Qed.

Lemma consecutive_sorted n k :
  StronglySorted Z.lt (map (λ i, n + 1 + Z.of_nat i) (seq 0 k)).
Proof.
  generalize 0%nat as j. induction k as [|k IH]; intros j; simpl;
    constructor; [apply IH|].
  apply Forall_forall. intros x Hx.
  apply list_elem_of_In, in_map_iff in Hx as (i & <- & Hi).
  apply in_seq in Hi. lia.
Qed.

(** C5.  Every inbound event, whatever its type, appends exactly one entry
    for that event at the end of the log and leaves the entries already
    there as they were, in the same order.  Over a run, the log grows by one
    entry per event, in arrival order; the identifiers given to the new
    entries are the counter plus 1, 2, 3, ..., hence strictly increasing,
    as long as the counter stays within the integers a JS number counts
    exactly (2^53). *)
Theorem eventLog_append_only :
  (∀ now e σ,
     logs (state (onEvent now e σ))
     = logs (state σ) ++ [GameLog.mk (pre_incr (logIdRef σ)) e now])
  ∧ (∀ arrivals σ,
       ∃ new,
         logs (state (run arrivals σ)) = logs (state σ) ++ new
         ∧ map GameLog.event new = arrivals.*2
         ∧ map GameLog.timestamp new = arrivals.*1
         ∧ (logIdRef σ + Z.of_nat (length arrivals) ≤ MAX_EXACT →
            map GameLog.id new
            = map (λ i, logIdRef σ + 1 + Z.of_nat i)
                (seq 0 (length arrivals))
            ∧ StronglySorted Z.lt (map GameLog.id new)
            ∧ Forall (λ i, logIdRef σ < i) (map GameLog.id new))).
Proof.
  split; [exact onEvent_logs|].
  intros arrivals σ. exists (stamp (logIdRef σ) arrivals).
  split; [apply run_logs|]. split; [apply stamp_events|]. split.
  { generalize (logIdRef σ). induction arrivals as [|a arrivals IH];
      intros n; simpl; [reflexivity | now rewrite IH]. }
  intros Hb. rewrite (stamp_ids _ _ Hb).
  split; [reflexivity|]. split; [apply consecutive_sorted|].
  apply Forall_forall. intros x Hx.
  apply list_elem_of_In, in_map_iff in Hx as (i & <- & _). lia.
Qed.

(** ** Events without a case *)

(** C6.  An event whose type has no case in the reducer's switch (an
    unknown type, and also [game.vote], [game.judge_narration] and
    [game.error]) changes no field of the snapshot other than the log:
    phase, round, winner, paused, thinkingPlayers, nightActions, players
    and sheriff are the same before and after. *)
Theorem unhandled_event_frame now e σ :
  event_type e ∉ reducer_cases →
  let s := state σ in
  let s' := state (onEvent now e σ) in
  GameUIState.phase s' = GameUIState.phase s
  ∧ GameUIState.round s' = GameUIState.round s
  ∧ GameUIState.winner s' = GameUIState.winner s
  ∧ GameUIState.paused s' = GameUIState.paused s
  ∧ thinkingPlayers s' = thinkingPlayers s
  ∧ nightActions s' = nightActions s
  ∧ players s' = players s
  ∧ sheriff s' = sheriff s.
Proof.
  intros H.
  destruct e; simpl in H;
    try (exfalso; apply H; unfold reducer_cases; repeat constructor; fail);
    simpl; repeat split; reflexivity.
Qed.

(** ** Phase changes *)

(** C9.  Every phase change, whatever phase it announces, leaves
    [thinkingPlayers] empty. *)
Theorem phase_change_clears_thinking now data σ :
  thinkingPlayers (state (onEvent now (phase_change data) σ)) = [].
Proof. reflexivity. Qed.

(** ** The thinking indicator *)

Lemma includes_spec (arr : list string) (t : string) :
  includes arr t = true ↔ t ∈ arr.
Proof.
  unfold includes. rewrite existsb_exists. split.
  - intros (x & Hx & E). apply String.eqb_eq in E. subst.
    now apply list_elem_of_In.
  - intros H. exists t. split; [now apply list_elem_of_In|].
    apply String.eqb_refl.
Qed.

Lemma Set_add_spec (acc : list Z) (x : Z) :
  NoDup acc →
  NoDup (Set_add acc x) ∧ ∀ y, y ∈ Set_add acc x ↔ y ∈ acc ∨ y = x.
Proof.
  intros H. unfold Set_add. destruct (decide (x ∈ acc)) as [Hin|Hnin].
  - split; [exact H|]. intros y. split; [auto|]. intros [?| ->]; auto.
  - split.
    + apply NoDup_app. split; [exact H|]. split.
      * intros y Hy Hy'. apply list_elem_of_singleton in Hy'. now subst.
      * apply NoDup_singleton.
    + intros y. rewrite elem_of_app, list_elem_of_singleton. tauto.
Qed.

Lemma fold_Set_add_spec (xs acc : list Z) :
  NoDup acc →
  NoDup (fold_left Set_add xs acc)
  ∧ ∀ y, y ∈ fold_left Set_add xs acc ↔ y ∈ acc ∨ y ∈ xs.
Proof.
  revert acc. induction xs as [|x xs IH]; intros acc H; simpl.
  - split; [exact H|]. intros y. rewrite elem_of_nil. tauto.
  - destruct (Set_add_spec acc x H) as [Hn Hm].
    destruct (IH _ Hn) as [Hn' Hm']. split; [exact Hn'|].
    intros y. rewrite Hm', Hm, elem_of_cons. tauto.
Qed.

(** [new Set(xs)] has the elements of [xs], each once. *)
Lemma Set_from_spec (xs : list Z) :
  NoDup (Set_from xs) ∧ ∀ y, y ∈ Set_from xs ↔ y ∈ xs.
Proof.
  destruct (fold_Set_add_spec xs [] (NoDup_nil_2)) as [Hn Hm].
  split; [exact Hn|]. intros y. unfold Set_from. rewrite Hm, elem_of_nil.
  tauto.
Qed.

Lemma onEvent_ai_thinking now data σ :
  thinkingPlayers (state (onEvent now (ai_thinking data) σ))
  = if includes sequentialPhases (AIThinkingData.phase data)
    then thinking_ids data
    else Set_from (thinkingPlayers (state σ) ++ thinking_ids data).
Proof. reflexivity. Qed.

(** C1.  An [ai_thinking] event whose phase is one of the sequential phases
    replaces [thinkingPlayers] by exactly the actors the event lists; with
    any other phase the result is the union of the previous set and the
    listed actors.  The listed actors are [player_ids] when the event has
    it, else the single [player_id].  Two "vote" events for actor 3 and then
    actor 5 leave {5}; two events of a parallel phase for {2} and then {9},
    starting with nobody thinking, leave {2, 9}. *)
Theorem ai_thinking_replace_or_union :
  (∀ now data σ,
     let prev := thinkingPlayers (state σ) in
     let next := thinkingPlayers (state (onEvent now (ai_thinking data) σ)) in
     (AIThinkingData.phase data ∈ sequentialPhases →
      next = thinking_ids data)
     ∧ (AIThinkingData.phase data ∉ sequentialPhases →
        NoDup next ∧ ∀ a, a ∈ next ↔ a ∈ prev ∨ a ∈ thinking_ids data))
  ∧ (∀ data ids,
       AIThinkingData.player_ids data = Some ids → thinking_ids data = ids)
  ∧ (∀ data a,
       AIThinkingData.player_ids data = None →
       AIThinkingData.player_id data = Some a → a ≠ 0 →
       thinking_ids data = [a])
  ∧ (∀ now1 now2 σ,
       thinkingPlayers
         (state (run [ (now1, ai_thinking (AIThinkingData.mk (Some 3) None "vote"));
                       (now2, ai_thinking (AIThinkingData.mk (Some 5) None "vote")) ]
                   σ))
       = [5])
  ∧ (∀ now1 now2 tag σ,
       tag ∉ sequentialPhases →
       thinkingPlayers (state σ) = [] →
       thinkingPlayers
         (state (run [ (now1, ai_thinking (AIThinkingData.mk None (Some [2]) tag));
                       (now2, ai_thinking (AIThinkingData.mk None (Some [9]) tag)) ]
                   σ))
       = [2; 9]).
Proof.
  split; [|split; [|split; [|split]]].
  - intros now data σ prev next. subst prev next.
    rewrite onEvent_ai_thinking.
    destruct (includes sequentialPhases (AIThinkingData.phase data)) eqn:E.
    + apply includes_spec in E. split; [reflexivity | contradiction].
    + split.
      * intros H. apply includes_spec in H. congruence.
      * intros _. destruct (Set_from_spec
          (thinkingPlayers (state σ) ++ thinking_ids data)) as [Hn Hm].
        split; [exact Hn|]. intros a. now rewrite Hm, elem_of_app.
  - intros data ids H. unfold thinking_ids. now rewrite H.
  - intros data a H1 H2 H3. unfold thinking_ids. rewrite H1, H2.
    destruct (Z.eqb_spec a 0); [contradiction | reflexivity].
  - reflexivity.
  - intros now1 now2 tag σ Htag Hempty.
    assert (includes sequentialPhases tag = false) as E.
    { destruct (includes sequentialPhases tag) eqn:E; [|reflexivity].
      apply includes_spec in E. contradiction. }
    unfold run, receive. cbn [fold_left fst snd].
    rewrite !onEvent_ai_thinking. cbn [AIThinkingData.phase].
    rewrite E, Hempty. reflexivity.
Qed.

(** ** Deaths *)

Lemma not_elem_of_without a (xs : list Z) : a ∉ without a xs.
Proof.
  unfold without. intros H. apply list_elem_of_filter in H as [H _].
  now apply H.
Qed.

(** C7.  When the dying actor is in the roster, the death event removes the
    actor from [thinkingPlayers] and sets the actor's [is_alive] to false.
    This holds for actor 7 as for any other, whether or not the actor was
    thinking. *)
Theorem death_clears_thinking now data σ :
  let a := DeathData.player_id data in
  is_Some (players (state σ) !! String_of a) →
  let s' := state (onEvent now (death data) σ) in
  (a ∉ thinkingPlayers s')
  ∧ (∃ p', players s' !! String_of a = Some p'
           ∧ PlayerInfo.is_alive p' = false).
Proof.
  intros a [p Hp] s'. subst s' a. simpl. rewrite Hp. simpl. split.
  - apply not_elem_of_without.
  - eexists. rewrite lookup_insert_eq. split; reflexivity.
Qed.

(** ** The sheriff mark *)

Lemma sheriff_holders_cleared (ps : gmap string PlayerInfo.t) :
  sheriff_holders (clear_sheriff <$> ps) = ∅.
Proof.
  unfold sheriff_holders. apply map_empty. intros k.
  apply map_lookup_filter_None. right. intros p Hp.
  rewrite lookup_fmap in Hp.
  destruct (ps !! k) as [q|]; [|discriminate]. injection Hp as <-.
  unfold clear_sheriff. simpl.
  destruct (PlayerInfo.is_sheriff q) eqn:E; simpl; congruence.
Qed.

Lemma sheriff_count_mark sid (ps : gmap string PlayerInfo.t) :
  sheriff_holders ps = ∅ → (sheriff_count (mark_sheriff sid ps) ≤ 1)%nat.
Proof.
  intros H. unfold sheriff_count, mark_sheriff.
  destruct (ps !! sid) as [p|].
  - unfold sheriff_holders in *.
    rewrite map_filter_insert_True by reflexivity.
    rewrite H, insert_empty, map_size_singleton. lia.
  - rewrite H, map_size_empty. lia.
Qed.

Lemma sheriff_count_give_badge n prev :
  (sheriff_count (players (give_badge n prev)) ≤ 1)%nat.
Proof. apply sheriff_count_mark, sheriff_holders_cleared. Qed.

Lemma sheriff_count_destroy_badge prev :
  sheriff_count (players (destroy_badge prev)) = 0%nat.
Proof.
  unfold sheriff_count, destroy_badge. simpl.
  now rewrite sheriff_holders_cleared, map_size_empty.
Qed.

(** Rewriting a player without touching the mark keeps the count. *)
Lemma sheriff_count_insert_same k p q (ps : gmap string PlayerInfo.t) :
  ps !! k = Some p →
  PlayerInfo.is_sheriff q = PlayerInfo.is_sheriff p →
  sheriff_count (<[k := q]> ps) = sheriff_count ps.
Proof.
  intros Hp Hq. unfold sheriff_count, sheriff_holders.
  destruct (PlayerInfo.is_sheriff p) eqn:E.
  - rewrite map_filter_insert_True by exact Hq.
    apply map_size_insert_Some. exists p.
    apply map_lookup_filter_Some. split; [exact Hp | exact E].
  - rewrite map_filter_insert_False by (simpl; congruence).
    rewrite map_filter_delete. f_equal. apply delete_id.
    apply map_lookup_filter_None. right. intros p' Hp'. simpl.
    congruence.
Qed.

Lemma reduce_sheriff_count e s :
  (sheriff_count (players s) ≤ 1)%nat →
  (sheriff_count (players (reduce e s)) ≤ 1)%nat.
Proof.
  intros H. destruct e; simpl; try exact H.
  - destruct (players s !! _) as [p|] eqn:Hp; [|exact H]. simpl.
    now rewrite (sheriff_count_insert_same _ p).
  - apply (sheriff_election_case_keeps
             (λ s', (sheriff_count (players s') ≤ 1)%nat)); auto.
    + intros n s' _. apply sheriff_count_give_badge.
    + intros s' _. rewrite sheriff_count_destroy_badge. lia.
Qed.

(** C2.  If at most one player carries the sheriff mark, then after any
    sequence of events at most one does; the identifiers an event names
    need not be in the roster.  Each sheriff mutation first clears every
    mark and then sets at most one: after [elected] or [badge_transferred]
    at most one player is marked, after [badge_destroyed] none, whatever
    the marks were before. *)
Theorem sheriff_at_most_one :
  (∀ arrivals σ,
     (sheriff_count (players (state σ)) ≤ 1)%nat →
     (sheriff_count (players (state (run arrivals σ))) ≤ 1)%nat)
  ∧ (∀ n prev, (sheriff_count (players (give_badge n prev)) ≤ 1)%nat)
  ∧ (∀ prev, sheriff_count (players (destroy_badge prev)) = 0%nat).
Proof.
  split; [|split; [exact sheriff_count_give_badge
                  |exact sheriff_count_destroy_badge]].
  induction arrivals as [|[now e] arrivals IH]; intros σ H; [exact H|].
  apply IH. unfold receive, onEvent. simpl.
  now apply reduce_sheriff_count.
Qed.

(** ** The round *)

Lemma onEvent_round now e σ :
  GameUIState.round (state (onEvent now e σ))
  = match e with
    | phase_change data =>
        num_or (PhaseChangeData.round data) (GameUIState.round (state σ))
    | _ => GameUIState.round (state σ)
    end.
Proof.
  destruct e; simpl; try reflexivity.
  - destruct (players (state σ) !! _); reflexivity.
  - apply (sheriff_election_case_keeps
             (λ s', GameUIState.round s' = GameUIState.round (state σ)));
      auto.
Qed.

Lemma announced_rounds_step now e arrivals σ :
  StronglySorted Z.le
    (GameUIState.round (state σ) :: announced_rounds ((now, e) :: arrivals)) →
  GameUIState.round (state σ)
    ≤ GameUIState.round (state (onEvent now e σ))
  ∧ StronglySorted Z.le
      (GameUIState.round (state (onEvent now e σ))
         :: announced_rounds arrivals).
Proof.
  rewrite onEvent_round. intros H.
  destruct e as [data| | | | | | | | | | | | |];
    try (split; [lia | exact H]).
  simpl in H. unfold num_or.
  destruct (PhaseChangeData.round data) as [r|]; [|split; [lia | exact H]].
  destruct (Z.eqb_spec r 0); [split; [lia | exact H]|].
  apply StronglySorted_inv in H as [H1 H2]. split; [|exact H1].
  now apply Forall_inv in H2.
Qed.

Lemma run_round_prefix (a1 a2 : list Arrival) σ :
  StronglySorted Z.le
    (GameUIState.round (state σ) :: announced_rounds (a1 ++ a2)) →
  StronglySorted Z.le
    (GameUIState.round (state (run a1 σ)) :: announced_rounds a2).
Proof.
  revert σ. induction a1 as [|[now e] a1 IH]; intros σ H; [exact H|].
  apply IH. now apply announced_rounds_step.
Qed.

Lemma run_round_le arrivals σ :
  StronglySorted Z.le
    (GameUIState.round (state σ) :: announced_rounds arrivals) →
  GameUIState.round (state σ) ≤ GameUIState.round (state (run arrivals σ)).
Proof.
  revert σ. induction arrivals as [|[now e] arrivals IH]; intros σ H;
    [simpl; lia|].
  destruct (announced_rounds_step _ _ _ _ H) as [H1 H2].
  specialize (IH _ H2). unfold run in *. simpl. unfold receive at 2. simpl.
  lia.
Qed.

Lemma run_app (a1 a2 : list Arrival) σ :
  run (a1 ++ a2) σ = run a2 (run a1 σ).
Proof. apply fold_left_app. Qed.

(** C3 (as amended).  Only a phase change writes [round]: it becomes the
    round of the payload when that is given and is not 0, and stays as it
    was otherwise; every other event leaves it as it was.  So [round] never
    decreases along a run whose phase changes carry rounds (other than 0)
    that never fall below the current round nor below one another. *)
Theorem round_follows_phase_change :
  (∀ now e σ,
     GameUIState.round (state (onEvent now e σ))
     = match e with
       | phase_change data =>
           num_or (PhaseChangeData.round data) (GameUIState.round (state σ))
       | _ => GameUIState.round (state σ)
       end)
  ∧ (∀ (a1 a2 : list Arrival) σ,
       StronglySorted Z.le
         (GameUIState.round (state σ) :: announced_rounds (a1 ++ a2)) →
       GameUIState.round (state (run a1 σ))
         ≤ GameUIState.round (state (run (a1 ++ a2) σ))).
Proof.
  split; [exact onEvent_round|].
  intros a1 a2 σ H. rewrite run_app.
  apply run_round_le. now apply run_round_prefix.
Qed.

End Reducer.

(** * Properties of the transport *)

Section Transport.

Implicit Types (w : World) (h k : nat) (gid : string).

Lemma notify_torn_down status w :
  torn_down w →
  torn_down (_notifyStatus status w)
  ∧ delivered (_notifyStatus status w) = delivered w
  ∧ sockets (_notifyStatus status w) = sockets w.
Proof.
  intros (Hm & Hs & Ht). unfold torn_down, _notifyStatus. simpl.
  rewrite Hs. simpl. rewrite app_nil_r. auto.
Qed.

(** [disconnect()] tears the transport down when the only timeout that can
    be pending is the one [reconnectTimer] names. *)
Lemma disconnect_torn_down w :
  (∀ i, timers w !! i = Some true → reconnectTimer (this w) = Some (S i)) →
  torn_down (disconnect w).
Proof.
  intros H. unfold torn_down, disconnect. simpl.
  split; [reflexivity|]. split; [reflexivity|].
  apply Forall_lookup. intros i b Hb.
  destruct b; [|reflexivity]. exfalso.
  destruct (reconnectTimer (this w)) as [t|] eqn:E.
  - destruct t as [|j]; simpl in Hb.
    + specialize (H i Hb). discriminate.
    + destruct (decide (i = j)) as [->|Hne].
      * apply list_lookup_insert_Some in Hb as [(_ & ? & _)|(? & _)];
          [discriminate | congruence].
      * rewrite list_lookup_insert_ne in Hb by congruence.
        specialize (H i Hb). congruence.
  - specialize (H i Hb). discriminate.
Qed.

(** Once torn down, no task of the event loop creates a socket or reaches a
    status handler, and the transport stays torn down. *)
Lemma task_torn_down a w w' :
  is_task a = true → torn_down w → act a w = Some w' →
  torn_down w'
  ∧ delivered w' = delivered w
  ∧ length (sockets w') = length (sockets w).
Proof.
  intros Ha Hq Hact.
  destruct a as [| | |k|k|t|k]; try discriminate; simpl in Hact;
    [| | |destruct (sockets w !! k) as [[]|]; try discriminate;
          injection Hact as <-; simpl;
          split; [exact Hq|]; split; [reflexivity | apply length_insert]].
  - destruct (sockets w !! k) as [[]|]; try discriminate.
    injection Hact as <-. unfold on_open.
    edestruct notify_torn_down as (H1 & H2 & H3); [|split; [exact H1|]].
    { exact Hq. }
    rewrite H2, H3. simpl. now rewrite length_insert.
  - assert (∀ ss, length ss = length (sockets w) →
              on_close (mkWorld (this w) ss (timers w) (delivered w)
                          (notified w)) = w' →
              torn_down w' ∧ delivered w' = delivered w
              ∧ length (sockets w') = length (sockets w)) as Hclose.
    { intros ss Hlen <-. unfold on_close. simpl.
      destruct Hq as (Hm & Hs & Ht). rewrite Hm.
      edestruct (notify_torn_down disconnected
                   (mkWorld (this w) ss (timers w) (delivered w)
                      (notified w))) as (H1 & H2 & H3).
      { repeat split; assumption. }
      split; [exact H1|]. rewrite H2, H3. auto. }
    destruct (sockets w !! k) as [[]|]; try discriminate;
      injection Hact as Hact; apply (Hclose _ (length_insert _ _ _) Hact).
  - destruct t as [|i]; [discriminate|].
    destruct (timers w !! i) as [[]|] eqn:E; try discriminate.
    destruct Hq as (_ & _ & Ht).
    rewrite Forall_lookup in Ht. specialize (Ht _ _ E). discriminate.
Qed.

Lemma tasks_torn_down (l : list Action) w w' :
  forallb is_task l = true → torn_down w → acts l w = Some w' →
  delivered w' = delivered w ∧ length (sockets w') = length (sockets w).
Proof.
  revert w. induction l as [|a l IH]; intros w Hl Hq Hacts; simpl in *.
  - injection Hacts as <-. auto.
  - apply andb_prop in Hl as [Ha Hl].
    destruct (act a w) as [w1|] eqn:E; [|discriminate].
    destruct (task_torn_down a w w1 Ha Hq E) as (Hq1 & Hd & Hs).
    destruct (IH w1 Hl Hq1 Hacts) as [Hd' Hs']. split; congruence.
Qed.

Lemma observed_by_all h (statuses : list ConnectionStatus) w :
  delivered w = map (λ status, (h, status)) statuses →
  observed_by h w = statuses.
Proof.
  intros E. unfold observed_by. rewrite E. clear E.
  induction statuses as [|status statuses IH]; [reflexivity|].
  cbn [map]. rewrite filter_cons_True by reflexivity.
  cbn [fmap list_fmap]. f_equal. exact IH.
Qed.

Lemma acts_app (l1 l2 : list Action) w :
  acts (l1 ++ l2) w = acts l1 w ≫= acts l2.
Proof.
  revert w. induction l1 as [|a l1 IH]; intros w; simpl; [reflexivity|].
  destruct (act a w); [apply IH | reflexivity].
Qed.

Lemma running_after_connect gid h :
  running (connect (onStatus h (new_GameWebSocket gid))).
Proof.
  unfold running. simpl. split; [reflexivity|].
  split; [intros i H; rewrite lookup_nil in H; discriminate|].
  split; [intros i k st H; rewrite lookup_nil in H; discriminate|].
  split.
  - intros [|j] [|k] sj sk Hj Hk; try reflexivity; discriminate.
  - rewrite not_elem_of_cons. split; [discriminate | apply not_elem_of_nil].
Qed.

Lemma running_task a w w' :
  is_task a = true → running w → act a w = Some w' → running w'.
Proof.
  intros Ha (Hm & Ht & Hc & Hu & Hd) Hact.
  destruct a as [| | |k|k|t|k]; try discriminate; simpl in Hact.
  - (* the socket opens *)
    destruct (sockets w !! k) as [st|] eqn:Ek; [|discriminate].
    destruct st; try discriminate. injection Hact as <-.
    assert (∀ i, timers w !! i = Some true → False) as Hnone.
    { intros i Hi. specialize (Hc i k _ Hi Ek). discriminate. }
    unfold running, on_open, _notifyStatus. simpl.
    split; [exact Hm|]. split; [exact Ht|].
    split; [intros i ? ? Hi; destruct (Hnone i Hi)|]. split.
    + intros j k' sj sk Hj Hk Hnj Hnk.
      destruct (decide (j = k)) as [->|Hjk], (decide (k' = k)) as [->|Hk'k];
        try reflexivity.
      * rewrite list_lookup_insert_ne in Hk by congruence.
        symmetry. eapply (Hu k' k sk CONNECTING); eauto; discriminate.
      * rewrite list_lookup_insert_ne in Hj by congruence.
        eapply (Hu j k sj CONNECTING); eauto; discriminate.
      * rewrite list_lookup_insert_ne in Hj, Hk by congruence. eauto.
    + rewrite fmap_app, elem_of_app. intros [H|H]; [now apply Hd|].
      rewrite <- list_fmap_compose in H.
      apply list_elem_of_fmap in H as (? & ? & _). discriminate.
  - (* the socket closes *)
    destruct (sockets w !! k) as [st|] eqn:Ek; [|discriminate].
    assert (st ≠ CLOSED) as Hst by (intros ->; discriminate).
    assert (on_close (mkWorld (this w) (<[k := CLOSED]> (sockets w))
                        (timers w) (delivered w) (notified w)) = w') as <-
      by (destruct st; congruence).
    clear Hact.
    assert (∀ i, timers w !! i = Some true → False) as Hnone.
    { intros i Hi. apply Hst. exact (Hc i k _ Hi Ek). }
    assert (∀ j sj, <[k := CLOSED]> (sockets w) !! j = Some sj → sj = CLOSED)
      as Hall.
    { intros j sj Hj. destruct (decide (j = k)) as [->|Hjk].
      - apply list_lookup_insert_Some in Hj as [(_ & ? & _)|(? & _)]; congruence.
      - rewrite list_lookup_insert_ne in Hj by congruence.
        destruct (decide (sj = CLOSED)) as [|Hsj]; [assumption|].
        destruct Hjk. eapply Hu; eauto. }
    unfold running, on_close. simpl. rewrite Hm. simpl.
    split; [reflexivity|]. split.
    { intros i Hi. apply lookup_app_Some in Hi as [Hi|[Hlen Hi]].
      - destruct (Hnone i Hi).
      - apply list_lookup_singleton_Some in Hi as [Hi _].
        f_equal. f_equal. lia. }
    split; [intros i j sj _ Hj; exact (Hall j sj Hj)|]. split.
    { intros j k' sj sk Hj _ Hnj. destruct Hnj. exact (Hall j sj Hj). }
    rewrite fmap_app, elem_of_app. intros [H|H]; [now apply Hd|].
    rewrite <- list_fmap_compose in H.
    apply list_elem_of_fmap in H as (? & ? & _). discriminate.
  - (* the retry delay elapses *)
    destruct t as [|i]; [discriminate|].
    destruct (timers w !! i) as [[]|] eqn:Ei; try discriminate.
    injection Hact as <-.
    assert (∀ j, <[i := false]> (timers w) !! j = Some true → False) as Hnone.
    { intros j Hj. destruct (decide (j = i)) as [->|Hji].
      - apply list_lookup_insert_Some in Hj as [(_ & ? & _)|(? & _)]; congruence.
      - rewrite list_lookup_insert_ne in Hj by congruence.
        pose proof (Ht _ Hj) as H1. pose proof (Ht _ Ei) as H2. congruence. }
    unfold running, connect, _notifyStatus. simpl.
    split; [reflexivity|].
    split; [intros j Hj; destruct (Hnone j Hj)|].
    split; [intros j ? ? Hj; destruct (Hnone j Hj)|]. split.
    + intros j k sj sk Hj Hk Hnj Hnk.
      apply lookup_app_Some in Hj as [Hj|[Hlj Hj]];
        [destruct Hnj; exact (Hc i j sj Ei Hj)|].
      apply lookup_app_Some in Hk as [Hk|[Hlk Hk]];
        [destruct Hnk; exact (Hc i k sk Ei Hk)|].
      apply list_lookup_singleton_Some in Hj as [Hj _].
      apply list_lookup_singleton_Some in Hk as [Hk _]. lia.
    + rewrite fmap_app, elem_of_app. intros [H|H]; [now apply Hd|].
      rewrite <- list_fmap_compose in H.
      apply list_elem_of_fmap in H as (? & ? & _). discriminate.
  - (* the server starts the closing handshake *)
    destruct (sockets w !! k) as [st|] eqn:Ek; [|discriminate].
    destruct st; try discriminate. injection Hact as <-.
    assert (∀ i, timers w !! i = Some true → False) as Hnone.
    { intros i Hi. specialize (Hc i k _ Hi Ek). discriminate. }
    unfold running. simpl.
    split; [exact Hm|]. split; [exact Ht|].
    split; [intros i ? ? Hi; destruct (Hnone i Hi)|]. split; [|exact Hd].
    intros j k' sj sk Hj Hk Hnj Hnk.
    destruct (decide (j = k)) as [->|Hjk], (decide (k' = k)) as [->|Hk'k];
      try reflexivity.
    + rewrite list_lookup_insert_ne in Hk by congruence.
      symmetry. eapply (Hu k' k sk OPEN); eauto; discriminate.
    + rewrite list_lookup_insert_ne in Hj by congruence.
      eapply (Hu j k sj OPEN); eauto; discriminate.
    + rewrite list_lookup_insert_ne in Hj, Hk by congruence. eauto.
Qed.

Lemma running_tasks (l : list Action) w w' :
  forallb is_task l = true → running w → acts l w = Some w' → running w'.
Proof.
  revert w. induction l as [|a l IH]; intros w Hl Hr Hacts; simpl in *.
  - now injection Hacts as <-.
  - apply andb_prop in Hl as [Ha Hl].
    destruct (act a w) as [w1|] eqn:E; [|discriminate].
    apply (IH w1 Hl); [|exact Hacts].
    exact (running_task a w w1 Ha Hr E).
Qed.

(** C8 (as amended).  The statuses the transport notifies, and what a
    subscriber of them sees.
      - Connect, open, an unexpected close, the retry delay: the transport
        notifies connecting, connected, reconnecting, connecting, and the
        subscriber sees all four.
      - Connect, open, [disconnect()], the close event: the transport
        notifies connecting, connected, disconnected (the close handler
        finds [manualClose] set and calls [_notifyStatus("disconnected")]
        instead of arming a retry); [disconnect()] has emptied
        [statusHandlers] before the browser dispatches the close event, so
        the subscriber sees connecting, connected and nothing more.
      - However the event loop runs before and after [disconnect()]: the
        subscriber is never told [disconnected], and after [disconnect()] no
        socket is created (no reconnect attempt) and no subscriber is
        reached. *)
Theorem transport_status_sequences gid h :
  (∃ w, acts (reconnect_scenario h) (new_GameWebSocket gid) = Some w
        ∧ observed_by h w = [connecting; connected; reconnecting; connecting]
        ∧ notified w = [connecting; connected; reconnecting; connecting])
  ∧ (∃ w, acts (manual_close_scenario h) (new_GameWebSocket gid) = Some w
          ∧ notified w = [connecting; connected; disconnected]
          ∧ observed_by h w = [connecting; connected])
  ∧ (∀ before after w,
       forallb is_task before = true →
       forallb is_task after = true →
       acts (hook_usage h before after) (new_GameWebSocket gid) = Some w →
       (disconnected ∉ observed_by h w)
       ∧ (∃ w1,
            acts (call_onStatus h :: call_connect :: before)
              (new_GameWebSocket gid) = Some w1
            ∧ delivered w = delivered w1
            ∧ length (sockets w) = length (sockets w1))).
Proof.
  split; [|split].
  - eexists. split; [reflexivity|]. split; [|reflexivity].
    now apply observed_by_all.
  - eexists. split; [reflexivity|]. split; [reflexivity|].
    now apply observed_by_all.
  - intros before after w Hb Ha Hacts. unfold hook_usage in Hacts.
    rewrite acts_app in Hacts.
    destruct (acts (call_onStatus h :: call_connect :: before)
                (new_GameWebSocket gid)) as [w1|] eqn:E1; [|discriminate].
    assert (running w1) as Hr.
    { apply (running_tasks before _ w1 Hb (running_after_connect gid h)).
      exact E1. }
    change (acts after (disconnect w1) = Some w) in Hacts.
    assert (torn_down (disconnect w1)) as Hq.
    { apply disconnect_torn_down. now destruct Hr as (_ & Ht & _). }
    destruct (tasks_torn_down after _ w Ha Hq Hacts) as [Hd Hs].
    assert (length (sockets (disconnect w1)) = length (sockets w1)) as Hlen.
    { unfold disconnect, socket_close. simpl.
      destruct (ws (this w1)) as [k|]; [|reflexivity].
      destruct (sockets w1 !! k) as [[]|]; try reflexivity;
        apply length_insert. }
    split.
    + destruct Hr as (_ & _ & _ & _ & Hno). intros Hin. apply Hno.
      unfold observed_by in Hin. rewrite Hd in Hin. simpl in Hin.
      apply list_elem_of_fmap in Hin as (d & -> & Hin).
      apply list_elem_of_filter in Hin as [_ Hin].
      apply list_elem_of_fmap. now exists d.
    + exists w1. split; [reflexivity|]. split; [exact Hd | congruence].
Qed.

End Transport.

(** * The statements at concrete inputs *)

(** Two "vote" events replace; the phase "vote" is sequential, the phase
    "wolf_discussion" is not. *)
Lemma ai_thinking_replace_or_union_witness :
  ("vote" ∈ sequentialPhases)
  ∧ ("wolf_discussion" ∉ sequentialPhases)
  ∧ thinkingPlayers
      (state (onEvent 0 (ai_thinking (AIThinkingData.mk (Some 3) None "vote"))
                sample_session))
    = [3]
  ∧ thinkingPlayers
      (state (run [ (0, ai_thinking
                          (AIThinkingData.mk None (Some [2]) "wolf_discussion"));
                    (1, ai_thinking
                          (AIThinkingData.mk None (Some [9]) "wolf_discussion")) ]
                initial_session))
    = [2; 9].
Proof.
  assert ("vote" ∈ sequentialPhases) as Hv
    by (apply includes_spec; reflexivity).
  assert ("wolf_discussion" ∉ sequentialPhases) as Hw
    by (intros H; apply includes_spec in H; discriminate H).
  split; [exact Hv|]. split; [exact Hw|].
  destruct ai_thinking_replace_or_union as (Hstep & _ & _ & _ & Hpar).
  split.
  - exact (proj1 (Hstep 0 (AIThinkingData.mk (Some 3) None "vote")
                    sample_session) Hv).
  - exact (Hpar 0 1 "wolf_discussion" initial_session Hw eq_refl).
Defined.

(** A transfer to actor 7, a transfer to an actor that is not in the roster,
    and the death of the holder, from a session where actor 2 holds the
    badge. *)
Lemma sheriff_at_most_one_witness :
  let arrivals :=
    [ (0, sheriff_election
            (JObject [("phase", JString "badge_transferred");
                      ("to", JNumber 7)]));
      (1, sheriff_election
            (JObject [("phase", JString "elected");
                      ("sheriff_id", JNumber 12)]));
      (2, death (DeathData.mk 7 "vote" None)) ] in
  (sheriff_count (players (state sample_session)) ≤ 1)%nat
  ∧ (sheriff_count (players (state (run arrivals sample_session))) ≤ 1)%nat.
Proof.
  intros arrivals.
  assert (sheriff_count (players (state sample_session)) ≤ 1)%nat as H
    by (vm_compute; lia).
  split; [exact H|].
  exact (proj1 sheriff_at_most_one arrivals sample_session H).
Defined.

(** Rounds 1, 1, 2 announced in this order: the round never decreases. *)
Lemma round_follows_phase_change_witness :
  let a1 := [ (0, phase_change (PhaseChangeData.mk "NIGHT_PHASE" (Some 1))) ] in
  let a2 := [ (1, phase_change (PhaseChangeData.mk "DAY_PHASE" (Some 1)));
              (2, phase_change (PhaseChangeData.mk "NIGHT_PHASE" (Some 2))) ] in
  StronglySorted Z.le
    (GameUIState.round (state initial_session) :: announced_rounds (a1 ++ a2))
  ∧ GameUIState.round (state (run a1 initial_session))
      ≤ GameUIState.round (state (run (a1 ++ a2) initial_session)).
Proof.
  intros a1 a2.
  assert (StronglySorted Z.le
            (GameUIState.round (state initial_session)
               :: announced_rounds (a1 ++ a2))) as H.
  { simpl. repeat constructor; lia. }
  split; [exact H|].
  exact (proj2 round_follows_phase_change a1 a2 initial_session H).
Defined.

(** C3, as stated, fails: after a phase change that announces round 5, a
    phase change that announces round 2 sets [round] back to 2. *)
Lemma round_can_decrease :
  let σ := run [ (0, phase_change (PhaseChangeData.mk "NIGHT_PHASE" (Some 5))) ]
             initial_session in
  let σ' := onEvent 1 (phase_change (PhaseChangeData.mk "DAY_PHASE" (Some 2))) σ in
  GameUIState.round (state σ) = 5
  ∧ GameUIState.round (state σ') = 2
  ∧ GameUIState.round (state σ') < GameUIState.round (state σ).
Proof. vm_compute. repeat split. Qed.



(** Two events from the initial session: identifiers 1 and 2. *)
Lemma eventLog_append_only_witness :
  let arrivals := [ (10, sample_speech 3); (11, other "game.future" JNull) ] in
  logIdRef initial_session + Z.of_nat (length arrivals) ≤ MAX_EXACT
  ∧ ∃ new,
      logs (state (run arrivals initial_session))
      = logs (state initial_session) ++ new
      ∧ map GameLog.id new = [1; 2].
Proof.
  intros arrivals.
  assert (logIdRef initial_session + Z.of_nat (length arrivals) ≤ MAX_EXACT)
    as Hb by (vm_compute; discriminate).
  split; [exact Hb|].
  destruct (proj2 eventLog_append_only arrivals initial_session)
    as (new & Hlogs & _ & _ & Hids).
  exists new. split; [exact Hlogs|].
  exact (proj1 (Hids Hb)).
Defined.

(** An event of a type the program does not know. *)
Lemma unhandled_event_frame_witness :
  let e := other "game.future" (JObject [("phase", JString "elected")]) in
  (event_type e ∉ reducer_cases)
  ∧ players (state (onEvent 5 e sample_session))
    = players (state sample_session)
  ∧ thinkingPlayers (state (onEvent 5 e sample_session)) = [7].
Proof.
  intros e.
  assert (event_type e ∉ reducer_cases) as H
    by (intros H; apply includes_spec in H; discriminate H).
  split; [exact H|].
  destruct (unhandled_event_frame 5 e sample_session H)
    as (_ & _ & _ & _ & Ht & _ & Hp & _).
  split; [exact Hp | exact Ht].
Defined.

(** The death of actor 7, who is in the roster and thinking. *)
Lemma death_clears_thinking_witness :
  let data := DeathData.mk 7 "hunter_shot" (Some 4) in
  (7 ∈ thinkingPlayers (state sample_session))
  ∧ is_Some (players (state sample_session) !! String_of 7)
  ∧ (7 ∉ thinkingPlayers (state (onEvent 3 (death data) sample_session)))
  ∧ (∃ p', players (state (onEvent 3 (death data) sample_session))
             !! String_of 7 = Some p'
           ∧ PlayerInfo.is_alive p' = false).
Proof.
  intros data.
  assert (is_Some (players (state sample_session) !! String_of 7)) as H
    by (vm_compute; eexists; reflexivity).
  split; [simpl; apply list_elem_of_here|]. split; [exact H|].
  exact (death_clears_thinking 3 data sample_session H).
Defined.

(** The hook's cleanup after the socket has opened: the subscriber is never
    told [disconnected]. *)
Lemma transport_status_sequences_witness :
  forallb is_task [socket_opened 0] = true
  ∧ forallb is_task [socket_closed 0] = true
  ∧ acts (hook_usage 0 [socket_opened 0] [socket_closed 0])
      (new_GameWebSocket "g1")
    = acts (manual_close_scenario 0) (new_GameWebSocket "g1")
  ∧ ∃ w, acts (manual_close_scenario 0) (new_GameWebSocket "g1") = Some w
         ∧ disconnected ∉ observed_by 0 w.
Proof.
  split; [reflexivity|]. split; [reflexivity|]. split; [reflexivity|].
  eexists. split; [reflexivity|].
  refine (proj1 (proj2 (proj2 (transport_status_sequences "g1" 0))
                   [socket_opened 0] [socket_closed 0] _
                   eq_refl eq_refl eq_refl)).
Defined.

(** C8, as stated, fails for the sequence a subscriber observes on a manual
    close: the transport notifies connecting, connected, disconnected, but
    the subscriber, dropped by [disconnect()] before the close event, has
    observed connecting, connected only. *)
Lemma manual_close_not_observed :
  ∃ w, acts (manual_close_scenario 0) (new_GameWebSocket "g1") = Some w
       ∧ notified w = [connecting; connected; disconnected]
       ∧ statusHandlers (this w) = []
       ∧ observed_by 0 w = [connecting; connected]
       ∧ observed_by 0 w ≠ [connecting; connected; disconnected].
Proof.
  eexists. split; [reflexivity|]. split; [reflexivity|].
  split; [reflexivity|].
  assert (∀ w, delivered w = [(0%nat, connecting); (0%nat, connected)] →
               observed_by 0 w = [connecting; connected]) as Hobs.
  { intros w Hw. unfold observed_by. rewrite Hw.
    rewrite !filter_cons_True by reflexivity. reflexivity. }
  rewrite Hobs by reflexivity. split; [reflexivity | discriminate].
Qed.

(** * Further properties of the reducer *)

Section Roster.

Implicit Types (σ : Session) (s prev : GameUIState.t) (e : GameEvent).
Implicit Types (k : string) (p q : PlayerInfo.t) (arrivals : list Arrival).

Lemma clear_sheriff_eq p : clear_sheriff p = PlayerInfo.with_is_sheriff false p.
Proof.
  unfold clear_sheriff. destruct p as [r f a [] c]; reflexivity.
Qed.

(** Reading the roster after a badge was given to [n]. *)
Lemma give_badge_lookup (n : Z) prev k :
  players (give_badge n prev) !! k
  = PlayerInfo.with_is_sheriff (bool_decide (k = String_of n))
      <$> players prev !! k.
Proof.
  unfold give_badge, mark_sheriff. simpl.
  rewrite lookup_fmap.
  destruct (players prev !! String_of n) as [q|] eqn:Eq; simpl.
  - destruct (decide (k = String_of n)) as [->|Hne].
    + rewrite lookup_insert_eq, Eq, bool_decide_true by reflexivity.
      simpl. now rewrite clear_sheriff_eq.
    + rewrite lookup_insert_ne, lookup_fmap by congruence.
      rewrite bool_decide_false by exact Hne.
      destruct (players prev !! k); simpl; [|reflexivity].
      now rewrite clear_sheriff_eq.
  - rewrite lookup_fmap.
    destruct (decide (k = String_of n)) as [->|Hne].
    + now rewrite Eq.
    + rewrite bool_decide_false by exact Hne.
      destruct (players prev !! k); simpl; [|reflexivity].
      now rewrite clear_sheriff_eq.
Qed.

Lemma destroy_badge_lookup prev k :
  players (destroy_badge prev) !! k
  = PlayerInfo.with_is_sheriff false <$> players prev !! k.
Proof.
  unfold destroy_badge. simpl. rewrite lookup_fmap.
  destruct (players prev !! k); simpl; [|reflexivity].
  now rewrite clear_sheriff_eq.
Qed.

(** What one event does to the entry under [k]: nothing appears or
    disappears, the identity fields stay, and [is_alive] changes only by a
    death event for that player. *)
Lemma reduce_player e s k :
  match players s !! k with
  | None => players (reduce e s) !! k = None
  | Some p =>
      ∃ p', players (reduce e s) !! k = Some p'
            ∧ same_identity p p'
            ∧ PlayerInfo.is_alive p'
              = (if is_death_of k e then false else PlayerInfo.is_alive p)
  end.
Proof.
  assert (∀ s', players s' = players s →
            match players s !! k with
            | None => players s' !! k = None
            | Some p =>
                ∃ p', players s' !! k = Some p' ∧ same_identity p p'
                      ∧ PlayerInfo.is_alive p' = PlayerInfo.is_alive p
            end) as Hsame.
  { intros s' ->. destruct (players s !! k) as [p|]; [|reflexivity].
    exists p. repeat split. }
  destruct e; try (apply Hsame; reflexivity).
  - (* death *)
    simpl. set (pid := String_of (DeathData.player_id data)).
    destruct (players s !! pid) as [q|] eqn:Eq.
    + simpl. destruct (decide (pid = k)) as [<-|Hne].
      * rewrite Eq, lookup_insert_eq, bool_decide_true by reflexivity.
        eexists. repeat split.
      * rewrite lookup_insert_ne, bool_decide_false by assumption.
        destruct (players s !! k) as [p|]; [|reflexivity].
        exists p. repeat split.
    + destruct (players s !! k) as [p|] eqn:Ek; [|reflexivity].
      rewrite bool_decide_false by congruence.
      exists p. repeat split.
  - (* sheriff election *)
    simpl.
    apply (sheriff_election_case_keeps
             (λ s', match players s !! k with
                    | None => players s' !! k = None
                    | Some p =>
                        ∃ p', players s' !! k = Some p' ∧ same_identity p p'
                              ∧ PlayerInfo.is_alive p' = PlayerInfo.is_alive p
                    end)).
    + now apply Hsame.
    + intros n s' H. exact H.
    + intros n s' H. rewrite give_badge_lookup.
      destruct (players s !! k) as [p|].
      * destruct H as (p' & -> & Hid & Ha). simpl. eexists.
        split; [reflexivity|]. split; [exact Hid | exact Ha].
      * now rewrite H.
    + intros s' H. rewrite destroy_badge_lookup.
      destruct (players s !! k) as [p|].
      * destruct H as (p' & -> & Hid & Ha). simpl. eexists.
        split; [reflexivity|]. split; [exact Hid | exact Ha].
      * now rewrite H.
Qed.

(** The same over a run. *)
Lemma run_player arrivals σ k :
  match players (state σ) !! k with
  | None => players (state (run arrivals σ)) !! k = None
  | Some p =>
      ∃ p', players (state (run arrivals σ)) !! k = Some p'
            ∧ same_identity p p'
            ∧ PlayerInfo.is_alive p'
              = PlayerInfo.is_alive p
                && negb (existsb (is_death_of k) arrivals.*2)
  end.
Proof.
  revert σ. induction arrivals as [|[now e] arrivals IH]; intros σ.
  - simpl. destruct (players (state σ) !! k) as [p|]; [|reflexivity].
    exists p. rewrite andb_true_r. repeat split.
  - change (run ((now, e) :: arrivals) σ) with (run arrivals (onEvent now e σ)).
    specialize (IH (onEvent now e σ)).
    pose proof (reduce_player e (state (addLog now e σ)) k) as Hstep.
    change (players (state (addLog now e σ))) with (players (state σ)) in Hstep.
    change (reduce e (state (addLog now e σ)))
      with (state (onEvent now e σ)) in Hstep.
    destruct (players (state σ) !! k) as [p|].
    + destruct Hstep as (p1 & Hp1 & (Hr1 & Hf1 & Hl1) & Ha1).
      rewrite Hp1 in IH. destruct IH as (p' & Hp' & (Hr & Hf & Hl) & Ha).
      exists p'. split; [exact Hp'|]. split.
      * repeat split; congruence.
      * rewrite Ha, Ha1. cbn [fmap list_fmap snd existsb].
        destruct (is_death_of k e), (PlayerInfo.is_alive p); reflexivity.
    + now rewrite Hstep in IH.
Qed.

(** X1.  No event adds a player to the roster or removes one, and no event
    changes a player's role, faction or model: an event that names an
    identifier outside the roster creates no entry for it. *)
Theorem roster_is_stable arrivals σ k :
  player_kept (players (state σ) !! k)
    (players (state (run arrivals σ)) !! k).
Proof.
  pose proof (run_player arrivals σ k) as H. unfold player_kept.
  destruct (players (state σ) !! k) as [p|].
  - destruct H as (p' & -> & Hid & _). exact Hid.
  - now rewrite H.
Qed.

(** X2.  A player of the roster is alive after a run exactly when the player
    was alive before it and the run held no death event for that player:
    nothing but such an event clears [is_alive], and nothing sets it
    again. *)
Theorem alive_until_death arrivals σ k p :
  players (state σ) !! k = Some p →
  ∃ p', players (state (run arrivals σ)) !! k = Some p'
        ∧ PlayerInfo.is_alive p'
          = PlayerInfo.is_alive p
            && negb (existsb (is_death_of k) arrivals.*2).
Proof.
  intros Hp. pose proof (run_player arrivals σ k) as H. rewrite Hp in H.
  destruct H as (p' & Hp' & _ & Ha). eauto.
Qed.

Lemma give_badge_marks (n : Z) prev : marks_agree (give_badge n prev).
Proof.
  intros k p Hk Hs. rewrite give_badge_lookup in Hk.
  destruct (players prev !! k) as [q|]; [|discriminate].
  injection Hk as <-. simpl in Hs. apply bool_decide_eq_true in Hs.
  exists n. split; [reflexivity | exact Hs].
Qed.

Lemma destroy_badge_marks prev : marks_agree (destroy_badge prev).
Proof.
  intros k p Hk Hs. rewrite destroy_badge_lookup in Hk.
  destruct (players prev !! k) as [q|]; [|discriminate].
  injection Hk as <-. discriminate Hs.
Qed.

Lemma reduce_marks_agree e s : marks_agree s → marks_agree (reduce e s).
Proof.
  intros H. destruct e; try exact H.
  - (* death *)
    simpl. set (pid := String_of (DeathData.player_id data)).
    destruct (players s !! pid) as [q|] eqn:Eq; [|exact H].
    intros k p Hk Hs. simpl in Hk.
    destruct (decide (pid = k)) as [<-|Hne].
    + rewrite lookup_insert_eq in Hk. injection Hk as <-.
      exact (H pid q Eq Hs).
    + rewrite lookup_insert_ne in Hk by assumption. exact (H k p Hk Hs).
  - (* sheriff election *)
    simpl. apply (sheriff_election_case_keeps marks_agree); auto.
    + intros n s' _. apply give_badge_marks.
    + intros s' _. apply destroy_badge_marks.
Qed.

Lemma run_marks_agree arrivals σ :
  marks_agree (state σ) → marks_agree (state (run arrivals σ)).
Proof.
  revert σ. induction arrivals as [|[now e] arrivals IH]; intros σ H;
    [exact H|].
  apply IH. unfold receive, onEvent. simpl.
  apply reduce_marks_agree. exact H.
Qed.

(** X3.  If every player who carries the sheriff mark is the one the
    [sheriff] field names, this stays so after any sequence of events; and an
    [elected], [badge_transferred] or [badge_destroyed] update makes it so
    whatever the marks were before. *)
Theorem sheriff_marks_agree :
  (∀ arrivals σ,
     marks_agree (state σ) → marks_agree (state (run arrivals σ)))
  ∧ (∀ n prev, marks_agree (give_badge n prev))
  ∧ (∀ prev, marks_agree (destroy_badge prev)).
Proof.
  split; [exact run_marks_agree|].
  split; [exact give_badge_marks | exact destroy_badge_marks].
Qed.

(** X4.  In a session whose marks agree with the [sheriff] field, the player
    panel shows the sheriff ribbon on the card of player [pid] exactly when
    [sheriff] is [pid]: never on two cards. *)
Theorem card_isSheriff_unique arrivals σ pid :
  marks_agree (state σ) →
  card_isSheriff (state (run arrivals σ)) pid = true
  ↔ sheriff (state (run arrivals σ)) = Some pid.
Proof.
  intros H0. pose proof (run_marks_agree arrivals σ H0) as H.
  set (s := state (run arrivals σ)) in *. unfold card_isSheriff. split.
  - intros Hc. apply orb_true_iff in Hc as [Hc|Hc].
    + destruct (players s !! String_of pid) as [p|] eqn:Ep; [|discriminate].
      destruct (H _ _ Ep Hc) as (n & Hn & Hk).
      apply (inj pretty) in Hk. congruence.
    + destruct (sheriff s) as [n|]; [|discriminate].
      apply Z.eqb_eq in Hc. congruence.
  - intros ->. rewrite Z.eqb_refl. apply orb_true_r.
Qed.

(** ** The winner and the pause flag *)

Lemma onEvent_winner now e σ :
  GameUIState.winner (state (onEvent now e σ))
  = match e with
    | game_end data => Some (GameEndData.winner data)
    | _ => GameUIState.winner (state σ)
    end.
Proof.
  destruct e; simpl; try reflexivity.
  - destruct (players (state σ) !! _); reflexivity.
  - apply (sheriff_election_case_keeps
             (λ s', GameUIState.winner s' = GameUIState.winner (state σ)));
      auto.
Qed.

Lemma onEvent_paused now e σ :
  GameUIState.paused (state (onEvent now e σ))
  = match e with
    | control data => String.eqb (GameControlData.action data) "paused"
    | _ => GameUIState.paused (state σ)
    end.
Proof.
  destruct e; simpl; try reflexivity.
  - destruct (players (state σ) !! _); reflexivity.
  - apply (sheriff_election_case_keeps
             (λ s', GameUIState.paused s' = GameUIState.paused (state σ)));
      auto.
Qed.

(** X5.  The winner is never cleared: once a run has seen a [game.end]
    event, [winner] is the winner of the last such event, and a winner that
    was set stays set. *)
Theorem winner_is_kept :
  (∀ arrivals σ,
     is_Some (GameUIState.winner (state σ)) →
     is_Some (GameUIState.winner (state (run arrivals σ))))
  ∧ (∀ a1 now data a2 σ,
       forallb (λ e, negb (is_game_end e)) a2.*2 = true →
       GameUIState.winner (state (run (a1 ++ (now, game_end data) :: a2) σ))
       = Some (GameEndData.winner data)).
Proof.
  assert (∀ a2 σ, forallb (λ e, negb (is_game_end e)) a2.*2 = true →
            GameUIState.winner (state (run a2 σ))
            = GameUIState.winner (state σ)) as Hnone.
  { induction a2 as [|[t e] a2 IH]; intros σ H; [reflexivity|].
    cbn [fmap list_fmap snd forallb] in H. apply andb_prop in H as [He H].
    change (run ((t, e) :: a2) σ) with (run a2 (onEvent t e σ)).
    rewrite (IH _ H), onEvent_winner. now destruct e. }
  split.
  - induction arrivals as [|[t e] arrivals IH]; intros σ H; [exact H|].
    apply IH. change (receive σ (t, e)) with (onEvent t e σ).
    rewrite onEvent_winner. destruct e; eauto.
  - intros a1 now data a2 σ H. rewrite run_app.
    change (run ((now, game_end data) :: a2) (run a1 σ))
      with (run a2 (onEvent now (game_end data) (run a1 σ))).
    now rewrite (Hnone _ _ H), onEvent_winner.
Qed.

(** X6.  Only [game.control] events write the pause flag: a run without one
    leaves it as it was, and after a run that has one the flag says whether
    the action of the last one was "paused". *)
Theorem paused_follows_control :
  (∀ arrivals σ,
     forallb (λ e, negb (is_control e)) arrivals.*2 = true →
     GameUIState.paused (state (run arrivals σ))
     = GameUIState.paused (state σ))
  ∧ (∀ a1 now data a2 σ,
       forallb (λ e, negb (is_control e)) a2.*2 = true →
       GameUIState.paused (state (run (a1 ++ (now, control data) :: a2) σ))
       = String.eqb (GameControlData.action data) "paused").
Proof.
  assert (∀ a2 σ, forallb (λ e, negb (is_control e)) a2.*2 = true →
            GameUIState.paused (state (run a2 σ))
            = GameUIState.paused (state σ)) as Hnone.
  { induction a2 as [|[t e] a2 IH]; intros σ H; [reflexivity|].
    cbn [fmap list_fmap snd forallb] in H. apply andb_prop in H as [He H].
    change (run ((t, e) :: a2) σ) with (run a2 (onEvent t e σ)).
    rewrite (IH _ H), onEvent_paused. now destruct e. }
  split; [exact Hnone|].
  intros a1 now data a2 σ H. rewrite run_app.
  change (run ((now, control data) :: a2) (run a1 σ))
    with (run a2 (onEvent now (control data) (run a1 σ))).
  now rewrite (Hnone _ _ H), onEvent_paused.
Qed.

End Roster.

(** * Properties of the fallback timers *)

Section Timers.

Implicit Types (σ : Session) (s : GameUIState.t) (e : GameEvent) (id pid : Z).

Lemma elem_of_without id pid (xs : list Z) :
  id ∈ without pid xs ↔ id ∈ xs ∧ id ≠ pid.
Proof. unfold without. rewrite list_elem_of_filter. tauto. Qed.

Lemma onEvent_backed now e σ : backed σ → backed (onEvent now e σ).
Proof.
  intros H id. unfold onEvent. cbn [state thinkingTimersRef addLog].
  assert (∀ s', thinkingPlayers s' = thinkingPlayers (state σ) →
            id ∈ thinkingPlayers s' → id ∈ thinkingTimersRef σ) as Hsame.
  { intros s' ->. apply H. }
  destruct e; try (apply Hsame; reflexivity); cbn [reduce retime].
  - (* phase change *) simpl. intros Hin. now apply elem_of_nil in Hin.
  - (* night action *)
    simpl. destruct (NightActionData.player_id data) as [pid|]; simpl.
    + rewrite elem_of_without. intros [Hin Hne]. specialize (H id Hin).
      set_solver.
    + apply H.
  - (* wolf discussion *)
    simpl. rewrite elem_of_without. intros [Hin Hne]. specialize (H id Hin).
    set_solver.
  - (* speech *)
    simpl. rewrite elem_of_without. intros [Hin Hne]. specialize (H id Hin).
    set_solver.
  - (* vote cast *)
    simpl. rewrite elem_of_without. intros [Hin Hne]. specialize (H id Hin).
    set_solver.
  - (* death *)
    destruct (players (with_logs _ _) !! _); [|apply H].
    simpl. rewrite elem_of_without. intros [Hin _]. exact (H id Hin).
  - (* ai thinking *)
    change (id ∈ thinkingPlayers (state (onEvent now (ai_thinking data) σ)) →
            id ∈ thinkingTimersRef σ ∪ list_to_set (thinking_ids data)).
    rewrite onEvent_ai_thinking.
    destruct (includes sequentialPhases (AIThinkingData.phase data)).
    + intros Hin. apply elem_of_union. right.
      now apply elem_of_list_to_set.
    + intros Hin. apply Set_from_spec, elem_of_app in Hin as [Hin|Hin].
      * apply elem_of_union. left. exact (H id Hin).
      * apply elem_of_union. right. now apply elem_of_list_to_set.
  - (* sheriff election *)
    apply (sheriff_election_case_keeps
             (λ s', id ∈ thinkingPlayers s' → id ∈ thinkingTimersRef σ)).
    + apply H.
    + intros n s' Hs'. simpl. rewrite elem_of_without. tauto.
    + intros n s' Hs'. exact Hs'.
    + intros s' Hs'. exact Hs'.
Qed.

Lemma timer_fired_backed pid σ : backed σ → backed (timer_fired pid σ).
Proof.
  intros H id. unfold timer_fired. simpl. rewrite elem_of_without.
  intros [Hin Hne]. specialize (H id Hin). set_solver.
Qed.

(** X7.  Whatever messages arrive and whichever timers expire, every actor
    shown as thinking has a fallback timer pending: no indicator can be left
    without the timeout that clears it. *)
Theorem thinking_is_backed (l : list Step) σ :
  backed σ → backed (steps l σ).
Proof.
  revert σ. induction l as [|st l IH]; intros σ H; [exact H|].
  apply IH. destruct st as [[now e]|id]; simpl.
  - now apply onEvent_backed.
  - now apply timer_fired_backed.
Qed.

Lemma expire_thinking (ids : list Z) σ :
  thinkingPlayers (state (expire ids σ))
  = filter (λ id, id ∉ ids) (thinkingPlayers (state σ))
  ∧ thinkingTimersRef (expire ids σ) = thinkingTimersRef σ ∖ list_to_set ids.
Proof.
  revert σ. induction ids as [|pid ids IH]; intros σ.
  - simpl. split; [|now rewrite difference_empty_L].
    induction (thinkingPlayers (state σ)) as [|x xs IHxs]; [reflexivity|].
    rewrite filter_cons_True by apply not_elem_of_nil. now f_equal.
  - destruct (IH (timer_fired pid σ)) as [Ht Hr].
    change (expire (pid :: ids) σ) with (expire ids (timer_fired pid σ)).
    rewrite Ht, Hr. simpl.
    split; [|now rewrite difference_difference_l_L].
    unfold without. rewrite list_filter_filter.
    apply list_filter_iff. intros x. rewrite not_elem_of_cons. tauto.
Qed.

(** X8.  When every pending fallback timer has expired, in whatever order
    [ids] (any enumeration of the pending timers, each once), nobody is shown
    as thinking and no timer is left, provided every thinking actor had a
    timer (as X7 keeps). *)
Theorem expiry_clears_all σ (ids : list Z) :
  backed σ →
  ids ≡ₚ elements (thinkingTimersRef σ) →
  thinkingPlayers (state (expire ids σ)) = []
  ∧ thinkingTimersRef (expire ids σ) = ∅.
Proof.
  intros H Hperm.
  destruct (expire_thinking ids σ) as [Ht Hr].
  rewrite Ht, Hr. split.
  - unfold backed in H. revert H.
    generalize (thinkingPlayers (state σ)) as xs.
    induction xs as [|x xs IHxs]; intros H; [reflexivity|].
    rewrite filter_cons_False.
    + apply IHxs. intros id Hid. apply H. now apply list_elem_of_further.
    + intros Hx. apply Hx. rewrite Hperm.
      apply elem_of_elements, H, list_elem_of_here.
  - rewrite (list_to_set_perm_L _ _ Hperm).
    now rewrite list_to_set_elements_L, difference_diag_L.
Qed.

End Timers.

(** * Further properties of the log grouping utility, and the timeline *)

Section Timeline.

Implicit Types (c : Cursor) (log l : GameLog.t) (g : RoundGroup.t).
Implicit Types (L M : list GameLog.t) (gs : list RoundGroup.t).
Implicit Types (σ : Session) (s : GameUIState.t) (e : GameEvent).

(** The loop body on a log that is not a phase change to night: the log goes
    to the day bucket when it is a phase change to day or the cursor is in a
    day, and to the night bucket otherwise. *)
Lemma group_step_other c log :
  night_payload log = None →
  group_step c log
  = let g := currentGroup c in
    if is_day_change log || match currentPhase c with day => true | night => false end
    then mkCursor (groups c) (currentRound c) day
           (RoundGroup.mk (RoundGroup.round g) (RoundGroup.nightLogs g)
              (RoundGroup.dayLogs g ++ [log]))
    else mkCursor (groups c) (currentRound c) night
           (RoundGroup.mk (RoundGroup.round g)
              (RoundGroup.nightLogs g ++ [log]) (RoundGroup.dayLogs g)).
Proof.
  unfold night_payload, group_step, is_day_change, push_current.
  destruct (GameLog.event log) as [d| | | | | | | | | | | | |];
    try (intros _; simpl; now destruct (currentPhase c)).
  destruct (String.eqb (PhaseChangeData.phase d) "NIGHT_PHASE"); [discriminate|].
  intros _.
  destruct (String.eqb (PhaseChangeData.phase d) "DAY_PHASE"); [reflexivity|].
  simpl. destruct (String.eqb (PhaseChangeData.phase d) "GAME_END");
    now destruct (currentPhase c).
Qed.

Lemma is_night_payload log :
  is_night log = false ↔ night_payload log = None.
Proof. unfold is_night. destruct (night_payload log); split; congruence. Qed.

(** Without a night the cursor stays in the day it is in. *)
Lemma fold_group_step_day L c :
  currentPhase c = day →
  Forall (λ l, is_night l = false) L →
  fold_left group_step L c
  = mkCursor (groups c) (currentRound c) day
      (RoundGroup.mk (RoundGroup.round (currentGroup c))
         (RoundGroup.nightLogs (currentGroup c))
         (RoundGroup.dayLogs (currentGroup c) ++ L)).
Proof.
  revert c. induction L as [|log L IH]; intros c Hd HL.
  - simpl. rewrite app_nil_r. destruct c as [gs r ph [gr nl dl]].
    simpl in Hd. now subst.
  - apply Forall_cons in HL as [Hl HL]. apply is_night_payload in Hl.
    cbn [fold_left]. rewrite (group_step_other c log Hl), Hd, orb_true_r.
    cbv zeta. rewrite IH by (reflexivity || exact HL).
    simpl. now rewrite <- app_assoc.
Qed.

(** X9.  A log that is not empty and holds no phase change to night gives
    exactly one segment: round 0, with an empty night bucket and the whole
    log, in order, as its day bucket. *)
Theorem groupLogsByRound_pregame L :
  L ≠ [] →
  Forall (λ l, is_night l = false) L →
  groupLogsByRound L = [RoundGroup.mk 0 [] L].
Proof.
  intros Hne HL. unfold groupLogsByRound.
  destruct L as [|log L]; [contradiction|].
  rewrite (fold_group_step_day (log :: L) initial_cursor eq_refl HL).
  reflexivity.
Qed.

Lemma since_last_night_snoc L log :
  since_last_night (L ++ [log])
  = if is_night log then [] else since_last_night L ++ [log].
Proof. unfold since_last_night. now rewrite fold_left_app. Qed.

Lemma extractNightActions_app L M :
  extractNightActions (L ++ M)
  = extractNightActions L ++ extractNightActions M.
Proof. apply omap_app. Qed.

Lemma reduce_nightActions e s :
  nightActions (reduce e s)
  = match e with
    | phase_change data =>
        if String.eqb (PhaseChangeData.phase data) "NIGHT_PHASE"
        then [] else nightActions s
    | night_action data => nightActions s ++ [data]
    | wolf_discussion data => nightActions s ++ [wolf_night_action data]
    | _ => nightActions s
    end.
Proof.
  destruct e; simpl; try reflexivity.
  - destruct (players s !! _); reflexivity.
  - apply (sheriff_election_case_keeps
             (λ s', nightActions s' = nightActions s)); auto.
Qed.

Lemma onEvent_night_actions now e σ :
  night_actions_in_step (state σ) →
  night_actions_in_step (state (onEvent now e σ)).
Proof.
  unfold night_actions_in_step. intros H.
  rewrite onEvent_logs, since_last_night_snoc.
  unfold onEvent. cbn [state]. rewrite reduce_nightActions.
  change (nightActions (state (addLog now e σ)))
    with (nightActions (state σ)).
  unfold is_night, night_payload. cbn [GameLog.event].
  destruct e; rewrite ?extractNightActions_app, <- ?H;
    try (simpl; now rewrite app_nil_r); try reflexivity.
  destruct (String.eqb (PhaseChangeData.phase data) "NIGHT_PHASE");
    [reflexivity|].
  rewrite extractNightActions_app, <- H. simpl. now rewrite app_nil_r.
Qed.

Lemma run_night_actions (arrivals : list Arrival) σ :
  night_actions_in_step (state σ) →
  night_actions_in_step (state (run arrivals σ)).
Proof.
  revert σ. induction arrivals as [|[now e] arrivals IH]; intros σ H;
    [exact H|].
  apply IH. now apply onEvent_night_actions.
Qed.

(** ** The latest segment and the reducer's night actions *)

Lemma has_logs_group_step c log :
  has_logs (currentGroup (group_step c log)) = true.
Proof.
  destruct (night_payload log) as [r|] eqn:E.
  - now rewrite (group_step_night c log r E).
  - now destruct (group_step_not_night c log E) as (_ & _ & H & _).
Qed.

Lemma has_logs_fold L c :
  has_logs (currentGroup c) = true →
  has_logs (currentGroup (fold_left group_step L c)) = true.
Proof.
  revert c. induction L as [|log L IH]; intros c H; [exact H|].
  apply IH, has_logs_group_step.
Qed.

(** On a log that is not empty, the output is the pushed groups followed by
    the group under construction. *)
Lemma groupLogsByRound_snoc L :
  L ≠ [] →
  let c := fold_left group_step L initial_cursor in
  groupLogsByRound L = groups c ++ [currentGroup c].
Proof.
  intros Hne c. unfold groupLogsByRound. destruct L as [|log L]; [contradiction|].
  fold c. unfold push_if_has_logs.
  assert (has_logs (currentGroup c) = true) as ->; [|reflexivity].
  unfold c. cbn [fold_left]. apply has_logs_fold, has_logs_group_step.
Qed.

Lemma fold_night_before_day L c :
  night_before_day c → night_before_day (fold_left group_step L c).
Proof.
  revert c. induction L as [|log L IH]; intros c H; [exact H|].
  apply IH. now apply group_step_logs.
Qed.

Lemma group_step_bucket c log :
  night_before_day c →
  bucket_logs (currentGroup (group_step c log))
  = if is_night log then [log] else bucket_logs (currentGroup c) ++ [log].
Proof.
  intros H. unfold is_night. destruct (night_payload log) as [r|] eqn:E.
  - now rewrite (group_step_night c log r E).
  - rewrite (group_step_other c log E). cbv zeta. unfold bucket_logs.
    destruct (is_day_change log); simpl; [now rewrite app_assoc|].
    destruct (currentPhase c) eqn:Ep; simpl; [|now rewrite app_assoc].
    unfold night_before_day in H. rewrite (H Ep). now rewrite !app_nil_r.
Qed.

Lemma extract_night_log log :
  is_night log = true → extractNightActions [log] = [].
Proof.
  unfold is_night, night_payload, extractNightActions. simpl.
  destruct (GameLog.event log); intros H; try discriminate H; reflexivity.
Qed.

(** The night actions in the bucket of the group under construction are those
    of the log since the last night. *)
Lemma fold_bucket_extract L c (acc : list GameLog.t) :
  night_before_day c →
  extractNightActions (bucket_logs (currentGroup c))
  = extractNightActions acc →
  extractNightActions
    (bucket_logs (currentGroup (fold_left group_step L c)))
  = extractNightActions
      (fold_left (λ acc log, if is_night log then [] else acc ++ [log]) L acc).
Proof.
  revert c acc. induction L as [|log L IH]; intros c acc Hc Hacc; [exact Hacc|].
  cbn [fold_left]. apply IH; [now apply group_step_logs|].
  rewrite (group_step_bucket c log Hc).
  destruct (is_night log) eqn:E; [now apply extract_night_log|].
  now rewrite !extractNightActions_app, Hacc.
Qed.

(** X10.  The night actions the reducer holds are those the timeline finds in
    its latest segment: [extractNightActions] of that segment's night bucket
    followed by those of its day bucket.  This holds after any run from a
    session in which the night actions are those of the log since the last
    night, as in the initial one. *)
Theorem nightActions_match_timeline (arrivals : list Arrival) σ g :
  night_actions_in_step (state σ) →
  last (groupLogsByRound (logs (state (run arrivals σ)))) = Some g →
  nightActions (state (run arrivals σ))
  = extractNightActions (RoundGroup.nightLogs g)
      ++ extractNightActions (RoundGroup.dayLogs g).
Proof.
  intros H0 Hlast. pose proof (run_night_actions arrivals σ H0) as H.
  unfold night_actions_in_step in H. rewrite H.
  set (L := logs (state (run arrivals σ))) in *.
  assert (L ≠ []) as Hne by (intros E; rewrite E in Hlast; discriminate).
  rewrite (groupLogsByRound_snoc L Hne) in Hlast. cbv zeta in Hlast.
  rewrite last_snoc in Hlast. injection Hlast as <-.
  rewrite <- extractNightActions_app. symmetry.
  apply (fold_bucket_extract L initial_cursor []); [discriminate | reflexivity].
Qed.

(** ** The shape of the segments *)

Lemma night_not_day_change log :
  is_night log = true → is_day_change log = false.
Proof.
  unfold is_night, night_payload, is_day_change.
  destruct (GameLog.event log) as [d| | | | | | | | | | | | |]; try discriminate.
  destruct (String.eqb_spec (PhaseChangeData.phase d) "NIGHT_PHASE") as [->|];
    [reflexivity | discriminate].
Qed.

Lemma push_if_has_logs_shaped gs g :
  Forall buckets_apart gs → buckets_apart g →
  Forall opened_by_night (tail gs) →
  (∀ g', head gs = Some g' →
         opened_by_night g' ∨ RoundGroup.nightLogs g' = []) →
  (opened_by_night g ∨ (gs = [] ∧ RoundGroup.nightLogs g = [])) →
  let out := push_if_has_logs gs g in
  Forall buckets_apart out
  ∧ Forall opened_by_night (tail out)
  ∧ (∀ g', head out = Some g' →
           opened_by_night g' ∨ RoundGroup.nightLogs g' = []).
Proof.
  intros Ha Hg Ht Hh Ho out. subst out. unfold push_if_has_logs.
  destruct (has_logs g); [|auto].
  split; [apply Forall_app; auto|].
  destruct gs as [|g0 gs]; simpl in *.
  - split; [constructor|]. intros g' [= <-]. destruct Ho as [?|[_ ?]]; auto.
  - split; [|exact Hh]. apply Forall_app. split; [exact Ht|].
    constructor; [|constructor]. destruct Ho as [?|[? _]]; [assumption|discriminate].
Qed.

Lemma group_step_shaped c log : shaped c → shaped (group_step c log).
Proof.
  intros (Ha & Hg & Ht & Hh & Ho).
  destruct (night_payload log) as [r|] eqn:E.
  - (* a night opens a group *)
    rewrite (group_step_night c log r E).
    assert (is_night log = true) as Hn by (unfold is_night; now rewrite E).
    destruct (push_if_has_logs_shaped (groups c) (currentGroup c))
      as (Ha' & Ht' & Hh'); auto.
    { destruct Ho as [?|(? & ? & _)]; auto. }
    unfold shaped. cbn [groups currentGroup currentPhase].
    repeat split; auto.
    + constructor; [now apply night_not_day_change | constructor].
    + left. exists log, []. repeat split; [exact Hn | constructor].
  - (* any other log joins the group under construction *)
    rewrite (group_step_other c log E). cbv zeta.
    assert (is_night log = false) as Hn by now apply is_night_payload.
    destruct Hg as [Hgn Hgd].
    destruct (is_day_change log) eqn:Ed; simpl.
    { unfold shaped. cbn [groups currentGroup currentPhase].
      repeat split; auto.
      - apply Forall_app. split; [exact Hgd|]. now repeat constructor.
      - destruct Ho as [(l0 & rest & ? & ? & ?)|(? & ? & _)]; [left|right; auto].
        now exists l0, rest. }
    destruct (currentPhase c) eqn:Ep.
    + unfold shaped. cbn [groups currentGroup currentPhase].
      repeat split; auto.
      * apply Forall_app. split; [exact Hgn|]. now repeat constructor.
      * left. destruct Ho as [(l0 & rest & Hl & ? & Hr)|(_ & _ & ?)];
          [|discriminate].
        exists l0, (rest ++ [log]). cbn [RoundGroup.nightLogs]. rewrite Hl.
        repeat split; auto. apply Forall_app. split; [exact Hr|].
        now repeat constructor.
    + unfold shaped. cbn [groups currentGroup currentPhase].
      repeat split; auto.
      apply Forall_app. split; [exact Hgd|]. now repeat constructor.
Qed.

Lemma fold_group_step_shaped L c :
  shaped c → shaped (fold_left group_step L c).
Proof.
  revert c. induction L as [|log L IH]; intros c H; [exact H|].
  apply IH. now apply group_step_shaped.
Qed.

(** X11.  In every segment the night bucket holds no phase change to day and
    the day bucket no phase change to night.  Every segment but the first
    begins with the phase change to night that opened it and holds no other;
    the first does too, or has an empty night bucket. *)
Theorem groupLogsByRound_shape L :
  let out := groupLogsByRound L in
  Forall buckets_apart out
  ∧ Forall opened_by_night (tail out)
  ∧ (∀ g, head out = Some g →
          opened_by_night g ∨ RoundGroup.nightLogs g = []).
Proof.
  unfold groupLogsByRound. destruct L as [|log L].
  { simpl. repeat split; try constructor. discriminate. }
  set (c := fold_left group_step (log :: L) initial_cursor).
  assert (shaped c) as (Ha & Hg & Ht & Hh & Ho).
  { apply fold_group_step_shaped. unfold shaped, buckets_apart. simpl.
    split; [constructor|]. split; [split; constructor|].
    split; [constructor|]. split; [discriminate|]. right. auto. }
  apply push_if_has_logs_shaped; auto.
  destruct Ho as [?|(? & ? & _)]; auto.
Qed.

(** ** How the segments grow with the log *)

Lemma push_if_has_logs_prefix gs g : gs `prefix_of` push_if_has_logs gs g.
Proof.
  unfold push_if_has_logs. destruct (has_logs g); [|reflexivity].
  now apply prefix_app_r.
Qed.

Lemma fold_groups_prefix L c :
  groups c `prefix_of` groups (fold_left group_step L c).
Proof.
  revert c. induction L as [|log L IH]; intros c; [reflexivity|].
  cbn [fold_left]. etransitivity; [|apply IH].
  destruct (night_payload log) as [r|] eqn:E.
  - rewrite (group_step_night c log r E). apply push_if_has_logs_prefix.
  - now destruct (group_step_not_night c log E) as (-> & _).
Qed.

(** X12.  Receiving more events only touches the last segment: all segments
    but the last stay as they are however the log goes on; a phase change to
    night adds one segment that holds it alone; any other event joins the
    last segment, which keeps its round. *)
Theorem groupLogsByRound_grows :
  (∀ L M,
     removelast (groupLogsByRound L) `prefix_of` groupLogsByRound (L ++ M))
  ∧ (∀ L log r,
       L ≠ [] → night_payload log = Some r →
       ∃ n, groupLogsByRound (L ++ [log])
            = groupLogsByRound L ++ [RoundGroup.mk n [log] []])
  ∧ (∀ L log,
       L ≠ [] → night_payload log = None →
       ∃ gs g g',
         groupLogsByRound L = gs ++ [g]
         ∧ groupLogsByRound (L ++ [log]) = gs ++ [g']
         ∧ RoundGroup.round g' = RoundGroup.round g
         ∧ bucket_logs g' = bucket_logs g ++ [log]).
Proof.
  split; [|split].
  - intros L M. destruct L as [|l0 L]; [apply prefix_nil|].
    rewrite (groupLogsByRound_snoc (l0 :: L)) by discriminate. cbv zeta.
    rewrite removelast_last.
    assert ((l0 :: L) ++ M ≠ []) as Hne by discriminate.
    rewrite (groupLogsByRound_snoc _ Hne). cbv zeta. rewrite fold_left_app.
    apply prefix_app_r, fold_groups_prefix.
  - intros L log r Hne E.
    assert (L ++ [log] ≠ []) as Hne' by (destruct L; discriminate).
    rewrite (groupLogsByRound_snoc _ Hne'), (groupLogsByRound_snoc _ Hne).
    cbv zeta. rewrite fold_left_app. cbn [fold_left].
    set (c := fold_left group_step L initial_cursor).
    rewrite (group_step_night c log r E). cbn [groups currentGroup].
    exists (num_or r (currentRound c + 1)). f_equal.
    unfold push_if_has_logs.
    assert (has_logs (currentGroup c) = true) as ->; [|reflexivity].
    unfold c. destruct L as [|l0 L]; [contradiction|].
    cbn [fold_left]. apply has_logs_fold, has_logs_group_step.
  - intros L log Hne E.
    assert (L ++ [log] ≠ []) as Hne' by (destruct L; discriminate).
    rewrite (groupLogsByRound_snoc _ Hne'), (groupLogsByRound_snoc _ Hne).
    cbv zeta. rewrite fold_left_app. cbn [fold_left].
    set (c := fold_left group_step L initial_cursor).
    exists (groups c), (currentGroup c), (currentGroup (group_step c log)).
    destruct (group_step_not_night c log E) as (Hg & _).
    rewrite Hg. split; [reflexivity|]. split; [reflexivity|].
    assert (night_before_day c) as Hc
      by (apply fold_night_before_day; discriminate).
    split.
    + rewrite (group_step_other c log E). cbv zeta.
      now destruct (is_day_change log || _).
    + rewrite (group_step_bucket c log Hc).
      apply is_night_payload in E. now rewrite E.
Qed.

(** ** The night actions per round *)

(** X13.  [roundActions] gives, for a round, the night actions of the last
    segment that carries this round: segments that share a round number all
    show the actions of the last of them, and a segment whose round no later
    segment carries shows its own. *)
Theorem roundActions_lookup gs (r : Z) :
  roundActions gs !! r
  = (λ g, extractNightActions (RoundGroup.nightLogs g))
      <$> last (filter (λ g, RoundGroup.round g = r) gs).
Proof.
  unfold roundActions. induction gs as [|g gs IH] using rev_ind;
    [reflexivity|].
  rewrite fold_left_app, filter_app. cbn [fold_left].
  destruct (decide (RoundGroup.round g = r)) as [<-|Hne].
  - rewrite lookup_insert_eq, filter_cons_True by reflexivity.
    rewrite filter_nil, last_snoc. reflexivity.
  - rewrite lookup_insert_ne by exact Hne.
    rewrite filter_cons_False, filter_nil, app_nil_r by exact Hne.
    exact IH.
Qed.

End Timeline.

(** * Further properties of the transport *)

Section Statuses.

Implicit Types (w : World) (h k : nat) (gid : string).
Implicit Types (l : list ConnectionStatus).

Lemma chained_snoc l (b : ConnectionStatus) :
  chained (l ++ [b])
  = chained l && match last l with
                 | Some a => follows a b
                 | None => true
                 end.
Proof.
  induction l as [|a l IH]; [reflexivity|].
  destruct l as [|a' l].
  - simpl. now rewrite andb_true_r.
  - change (chained ((a :: a' :: l) ++ [b]))
      with (follows a a' && chained ((a' :: l) ++ [b])).
    rewrite IH. change (chained (a :: a' :: l))
      with (follows a a' && chained (a' :: l)).
    change (last (a :: a' :: l)) with (last (a' :: l)).
    now rewrite andb_assoc.
Qed.

(** The server starting the closing handshake, between [connect()] and
    [disconnect()]: no status is notified and no handler is called. *)
Lemma closing_status k w w' :
  running w → status_matches w → act (socket_closing k) w = Some w' →
  notified w' = notified w
  ∧ delivered w' = delivered w
  ∧ this w' = this w
  ∧ status_matches w'.
Proof.
  intros (Hm & Ht & Hc & Hu & Hd) Hs Hact. unfold status_matches in *.
  simpl in Hact.
  destruct (sockets w !! k) as [st|] eqn:Ek; [|discriminate].
  destruct st; try discriminate. injection Hact as <-. simpl.
  do 3 (split; [reflexivity|]).
  destruct (last (notified w)) as [[]|]; try contradiction.
  - destruct Hs as (k0 & Hws & Hk0).
    assert (k0 = k) as -> by (eapply Hu; eauto; discriminate). congruence.
  - destruct Hs as (k0 & Hws & Hk0).
    assert (k0 = k) as ->
      by (destruct Hk0; eapply Hu; eauto; discriminate).
    exists k. split; [exact Hws|]. right.
    apply list_lookup_insert_eq. now apply lookup_lt_Some in Ek.
  - specialize (Hs k _ Ek). discriminate.
Qed.

(** Any other task of the event loop, between [connect()] and
    [disconnect()]: exactly one status is notified, it follows the last one,
    and it is delivered to the handlers. *)
Lemma task_status a w w' :
  is_task a = true → (∀ k, a ≠ socket_closing k) →
  running w → status_matches w → act a w = Some w' →
  ∃ status prev,
    notified w' = notified w ++ [status]
    ∧ last (notified w) = Some prev
    ∧ follows prev status = true
    ∧ status_matches w'
    ∧ statusHandlers (this w') = statusHandlers (this w)
    ∧ delivered w'
      = delivered w ++ map (λ h, (h, status)) (statusHandlers (this w)).
Proof.
  intros Ha Hnc (Hm & Ht & Hc & Hu & Hd) Hs Hact. unfold status_matches in *.
  destruct a as [| | |k|k|t|k]; try discriminate; simpl in Hact;
    [| | |destruct (Hnc k eq_refl)].
  - (* the socket opens *)
    destruct (sockets w !! k) as [st|] eqn:Ek; [|discriminate].
    destruct st; try discriminate. injection Hact as <-.
    exists connected, connecting. cbn [notified on_open _notifyStatus].
    rewrite last_snoc.
    destruct (last (notified w)) as [[]|]; try contradiction.
    + destruct Hs as (k0 & Hws & Hk0).
      assert (k0 = k) as -> by (eapply Hu; eauto; discriminate).
      repeat split; try reflexivity.
      exists k. split; [exact Hws|]. left. simpl.
      apply list_lookup_insert_eq. now apply lookup_lt_Some in Ek.
    + destruct Hs as (k0 & Hws & Hk0).
      assert (k0 = k) as ->
        by (destruct Hk0; eapply Hu; eauto; discriminate).
      destruct Hk0; congruence.
    + specialize (Hs k _ Ek). discriminate.
  - (* the socket closes *)
    destruct (sockets w !! k) as [st|] eqn:Ek; [|discriminate].
    assert (st ≠ CLOSED) as Hst by (intros ->; discriminate).
    assert (on_close (mkWorld (this w) (<[k := CLOSED]> (sockets w))
                        (timers w) (delivered w) (notified w)) = w') as <-
      by (destruct st; congruence).
    clear Hact.
    assert (∀ j sj, <[k := CLOSED]> (sockets w) !! j = Some sj → sj = CLOSED)
      as Hall.
    { intros j sj Hj. destruct (decide (j = k)) as [->|Hjk].
      - apply list_lookup_insert_Some in Hj as [(_ & ? & _)|(? & _)]; congruence.
      - rewrite list_lookup_insert_ne in Hj by congruence.
        destruct (decide (sj = CLOSED)) as [|Hsj]; [assumption|].
        destruct Hjk. eapply Hu; eauto. }
    unfold on_close. cbn [this manualClose]. rewrite Hm.
    cbn [notified _notifyStatus this statusHandlers delivered sockets].
    rewrite last_snoc.
    assert (∃ prev, last (notified w) = Some prev
                    ∧ follows prev reconnecting = true) as (prev & Hp & Hf).
    { destruct (last (notified w)) as [[]|]; try contradiction; eauto.
      destruct Hst. exact (Hs k _ Ek). }
    exists reconnecting, prev. repeat split; auto.
  - (* the retry delay elapses *)
    destruct t as [|i]; [discriminate|].
    destruct (timers w !! i) as [[]|] eqn:Ei; try discriminate.
    injection Hact as <-.
    exists connecting, reconnecting.
    cbn [notified connect _notifyStatus this statusHandlers delivered sockets
         ws manualClose handlers reconnectTimer gameId].
    rewrite last_snoc.
    assert (last (notified w) = Some reconnecting) as Hp.
    { destruct (last (notified w)) as [[]|]; try contradiction;
        try reflexivity; destruct Hs as (k0 & _ & Hk0);
        [|destruct Hk0 as [Hk0|Hk0]];
        specialize (Hc i k0 _ Ei Hk0); discriminate. }
    repeat split; auto.
    exists (length (sockets w)). split; [reflexivity|].
    rewrite lookup_app_r by reflexivity. now rewrite Nat.sub_diag.
Qed.

Lemma tasks_status (acts_list : list Action) h w w' :
  forallb is_task acts_list = true →
  running w → status_matches w → told h w → chained (notified w) = true →
  acts acts_list w = Some w' →
  running w' ∧ status_matches w' ∧ told h w'
  ∧ chained (notified w') = true
  ∧ notified w `prefix_of` notified w'.
Proof.
  revert w. induction acts_list as [|a rest IH];
    intros w Hl Hr Hs Hh Hch Hacts; simpl in *.
  - injection Hacts as <-. auto.
  - apply andb_prop in Hl as [Ha Hl].
    destruct (act a w) as [w1|] eqn:E; [|discriminate].
    pose proof (running_task a w w1 Ha Hr E) as Hr1.
    assert ((∃ k, a = socket_closing k) ∨ (∀ k, a ≠ socket_closing k))
      as [[k ->]|Hnc] by (destruct a; eauto; right; discriminate).
    { destruct (closing_status k w w1 Hr Hs E) as (Hn & Hdel & Hth & Hs1).
      assert (told h w1) as Hh'
        by (destruct Hh as [Hh1 Hh2]; split; congruence).
      rewrite <- Hn in Hch |- *.
      exact (IH w1 Hl Hr1 Hs1 Hh' Hch Hacts). }
    destruct (task_status a w w1 Ha Hnc Hr Hs E)
      as (status & prev & Hn & Hp & Hf & Hs1 & Hsh & Hdel).
    destruct Hh as [Hh1 Hh2].
    assert (told h w1) as Hh'.
    { split; [congruence|]. rewrite Hdel, Hn, Hh1, Hh2, map_app. reflexivity. }
    assert (chained (notified w1) = true) as Hch1.
    { rewrite Hn, chained_snoc, Hch, Hp. exact Hf. }
    destruct (IH w1 Hl Hr1 Hs1 Hh' Hch1 Hacts) as (? & ? & ? & ? & Hpre).
    do 4 (split; [assumption|]).
    etransitivity; [|exact Hpre]. rewrite Hn. now apply prefix_app_r.
Qed.

(** The transport right after the hook subscribed and connected. *)
Lemma connected_first gid h :
  let w := connect (onStatus h (new_GameWebSocket gid)) in
  status_matches w ∧ told h w ∧ notified w = [connecting].
Proof.
  simpl. unfold status_matches, told. simpl.
  split; [exists 0%nat; auto|]. auto.
Qed.

(** The state of the transport when the hook's cleanup calls
    [disconnect()]. *)
Lemma before_disconnect gid h (before : list Action) w1 :
  forallb is_task before = true →
  acts (call_onStatus h :: call_connect :: before) (new_GameWebSocket gid)
  = Some w1 →
  running w1 ∧ status_matches w1 ∧ told h w1
  ∧ chained (notified w1) = true
  ∧ [connecting] `prefix_of` notified w1.
Proof.
  intros Hb Hacts.
  change (acts before (connect (onStatus h (new_GameWebSocket gid))) = Some w1)
    in Hacts.
  destruct (connected_first gid h) as (Hs & Hh & Hn).
  rewrite <- Hn.
  apply (tasks_status before h _ w1 Hb); auto using running_after_connect.
Qed.

(** X14.  Under the hook's use of the transport, the statuses its subscriber
    is told start with connecting, and each one follows the one before by a
    step connecting → connected, connecting → reconnecting, connected →
    reconnecting or reconnecting → connecting. *)
Theorem statuses_follow_the_machine gid h (before after : list Action) w :
  forallb is_task before = true →
  forallb is_task after = true →
  acts (hook_usage h before after) (new_GameWebSocket gid) = Some w →
  ∃ rest,
    observed_by h w = connecting :: rest
    ∧ chained (connecting :: rest) = true.
Proof.
  intros Hb Ha Hacts. unfold hook_usage in Hacts. rewrite acts_app in Hacts.
  destruct (acts (call_onStatus h :: call_connect :: before)
              (new_GameWebSocket gid)) as [w1|] eqn:E1; [|discriminate].
  destruct (before_disconnect gid h before w1 Hb E1)
    as (Hr & _ & [_ Hdel] & Hch & [rest Hpre]).
  change (acts after (disconnect w1) = Some w) in Hacts.
  assert (torn_down (disconnect w1)) as Hq
    by (apply disconnect_torn_down; now destruct Hr as (_ & Ht & _)).
  destruct (tasks_torn_down after _ w Ha Hq Hacts) as [Hd _].
  exists rest. simpl in Hpre. rewrite <- Hpre. split; [|exact Hch].
  apply observed_by_all. rewrite Hd. exact Hdel.
Qed.

(** X15.  Between [connect()] and [disconnect()], under the hook's use, the
    transport never holds two connections: at most one socket is not closed,
    at most one retry is pending, and a retry is pending only while every
    socket is closed. *)
Theorem one_connection_at_a_time gid h (before : list Action) w1 :
  forallb is_task before = true →
  acts (call_onStatus h :: call_connect :: before) (new_GameWebSocket gid)
  = Some w1 →
  (∀ j k sj sk,
     sockets w1 !! j = Some sj → sockets w1 !! k = Some sk →
     sj ≠ CLOSED → sk ≠ CLOSED → j = k)
  ∧ (∀ i j, timers w1 !! i = Some true → timers w1 !! j = Some true → i = j)
  ∧ (∀ i k st,
       timers w1 !! i = Some true → sockets w1 !! k = Some st → st = CLOSED).
Proof.
  intros Hb Hacts.
  destruct (before_disconnect gid h before w1 Hb Hacts)
    as ((_ & Ht & Hc & Hu & _) & _).
  split; [exact Hu|]. split; [|exact Hc].
  intros i j Hi Hj. pose proof (Ht i Hi). pose proof (Ht j Hj). congruence.
Qed.

Lemma task_torn_down_this a w w' :
  is_task a = true → torn_down w → act a w = Some w' → this w' = this w.
Proof.
  intros Ha (Hm & _ & Ht) Hact.
  destruct a as [| | |k|k|t|k]; try discriminate; simpl in Hact;
    [| | |destruct (sockets w !! k) as [[]|]; try discriminate;
          now injection Hact as <-].
  - destruct (sockets w !! k) as [[]|]; try discriminate.
    now injection Hact as <-.
  - unfold on_close in Hact. cbn [this] in Hact. rewrite Hm in Hact.
    destruct (sockets w !! k) as [[]|]; try discriminate;
      now injection Hact as <-.
  - destruct t as [|i]; [discriminate|].
    destruct (timers w !! i) as [[]|] eqn:E; try discriminate.
    rewrite Forall_lookup in Ht. specialize (Ht _ _ E). discriminate.
Qed.

Lemma tasks_torn_down_this (l : list Action) w w' :
  forallb is_task l = true → torn_down w → acts l w = Some w' →
  this w' = this w.
Proof.
  revert w. induction l as [|a l IH]; intros w Hl Hq Hacts; simpl in *.
  - now injection Hacts as <-.
  - apply andb_prop in Hl as [Ha Hl].
    destruct (act a w) as [w1|] eqn:E; [|discriminate].
    destruct (task_torn_down a w w1 Ha Hq E) as (Hq1 & _).
    rewrite (IH w1 Hl Hq1 Hacts). exact (task_torn_down_this a w w1 Ha Hq E).
Qed.

(** X16.  [send] (so [pause()] and [resume()]) puts a frame on the wire
    exactly while the last status notified is connected and the socket has
    not begun closing; in any other state the command is dropped, not
    queued.  While the last status is connected the socket is open or
    closing, and the closing case occurs: the server starts the closing
    handshake and the status is still connected.  After [disconnect()]
    nothing is ever sent again. *)
Theorem send_only_when_connected gid h (before : list Action) w1
    (type : string) (data : Json) :
  forallb is_task before = true →
  acts (call_onStatus h :: call_connect :: before) (new_GameWebSocket gid)
  = Some w1 →
  (is_Some (send type data w1)
   ↔ last (notified w1) = Some connected
     ∧ ∃ k, ws (this w1) = Some k ∧ sockets w1 !! k ≠ Some CLOSING)
  ∧ (last (notified w1) = Some connected →
     ∃ k, ws (this w1) = Some k
          ∧ (sockets w1 !! k = Some OPEN ∨ sockets w1 !! k = Some CLOSING))
  ∧ (∀ k w2,
       last (notified w1) = Some connected →
       act (socket_closing k) w1 = Some w2 →
       last (notified w2) = Some connected ∧ send type data w2 = None)
  ∧ (∀ (after : list Action) w,
       forallb is_task after = true →
       acts (call_disconnect :: after) w1 = Some w →
       send type data w = None).
Proof.
  intros Hb Hacts.
  destruct (before_disconnect gid h before w1 Hb Hacts)
    as (Hr & Hs & _). split; [|split; [|split]].
  - unfold send, status_matches in *. split.
    + intros [frame Hf].
      destruct (ws (this w1)) as [k|]; [|discriminate].
      destruct (sockets w1 !! k) as [[]|] eqn:Ek; try discriminate.
      split; [|exists k; split; [reflexivity | congruence]].
      destruct (last (notified w1)) as [[]|]; try contradiction;
        try reflexivity.
      * destruct Hs as (k0 & [= <-] & Hk0). congruence.
      * specialize (Hs k _ Ek). discriminate.
    + intros [Hl (k & Hws & Hk)]. rewrite Hl in Hs.
      destruct Hs as (k0 & Hws0 & [Hk0|Hk0]);
        assert (k0 = k) as -> by congruence; [|contradiction].
      rewrite Hws, Hk0. eauto.
  - intros Hl. unfold status_matches in Hs. now rewrite Hl in Hs.
  - intros k w2 Hl Hact.
    destruct (closing_status k w1 w2 Hr Hs Hact) as (Hn & _ & Hth & Hs2).
    split; [congruence|].
    unfold status_matches in Hs. rewrite Hl in Hs.
    destruct Hs as (k0 & Hws & Hk0).
    simpl in Hact.
    destruct (sockets w1 !! k) as [st|] eqn:Ek; [|discriminate].
    destruct st; try discriminate. injection Hact as <-.
    assert (k0 = k) as ->.
    { destruct Hr as (_ & _ & _ & Hu & _).
      destruct Hk0; eapply Hu; eauto; discriminate. }
    unfold send. simpl. rewrite Hws.
    rewrite list_lookup_insert_eq by (now apply lookup_lt_Some in Ek).
    reflexivity.
  - intros after w Ha Hw. change (acts after (disconnect w1) = Some w) in Hw.
    assert (torn_down (disconnect w1)) as Hq
      by (apply disconnect_torn_down; now destruct Hr as (_ & Ht & _)).
    unfold send. now rewrite (tasks_torn_down_this after _ w Ha Hq Hw).
Qed.

End Statuses.

(** * Properties of the night panel's channels *)

Section Channels.

Implicit Types (σ : Session) (actions : list NightActionData.t).

Lemma getChannelActions_app actions actions' (channel : string) :
  getChannelActions (actions ++ actions') channel
  = getChannelActions actions channel ++ getChannelActions actions' channel.
Proof.
  unfold getChannelActions.
  destruct (String.eqb channel "resolve"); [apply List.filter_app|].
  destruct (String.eqb channel "wolf"); apply List.filter_app.
Qed.

(** X17.  A wolf discussion event adds its record, at the end, to the
    actions the "wolf" tab lists from the reducer's night actions, and
    leaves what the other four tabs list unchanged. *)
Theorem wolf_discussion_in_wolf_tab now data σ (channel : string) :
  channel ∈ CHANNEL_keys →
  getChannelActions
    (nightActions (state (onEvent now (wolf_discussion data) σ))) channel
  = getChannelActions (nightActions (state σ)) channel
      ++ (if String.eqb channel "wolf" then [wolf_night_action data] else []).
Proof.
  intros Hch.
  change (nightActions (state (onEvent now (wolf_discussion data) σ)))
    with (nightActions (state σ) ++ [wolf_night_action data]).
  rewrite getChannelActions_app. f_equal.
  unfold CHANNEL_keys in Hch.
  repeat (apply elem_of_cons in Hch as [->|Hch]; [reflexivity|]).
  now apply elem_of_nil in Hch.
Qed.

End Channels.

(** * Properties of the token store *)

Section Tokens.

Implicit Types (ls : gmap string string) (token : string).

Lemma isAuthenticated_spec ls :
  isAuthenticated ls = true ↔ ∃ token, getToken ls = Some token ∧ token ≠ "".
Proof.
  unfold isAuthenticated. destruct (getToken ls) as [t|]; split.
  - intros H. exists t. split; [reflexivity|].
    intros ->. discriminate H.
  - intros (t' & [= <-] & Hne).
    destruct (String.eqb_spec t ""); [contradiction | reflexivity].
  - discriminate.
  - intros (? & ? & _). discriminate.
Qed.

(** X18.  [request] attaches an [Authorization] header exactly when
    [isAuthenticated()] holds, and then it is "Bearer " followed by the
    stored token; the content type is always JSON.  (For a call that passes
    no headers of its own.) *)
Theorem request_headers_follow_token ls :
  (is_Some (request_headers ls None !! "Authorization")
   ↔ isAuthenticated ls = true)
  ∧ (∀ token,
       getToken ls = Some token → token ≠ "" →
       request_headers ls None !! "Authorization"
       = Some ("Bearer " +:+ token))
  ∧ request_headers ls None !! "Content-Type" = Some "application/json".
Proof.
  unfold request_headers, isAuthenticated. cbn [default].
  rewrite (left_id_L ∅ (∪)).
  destruct (getToken ls) as [t|]; [destruct (String.eqb_spec t "")|].
  - rewrite (left_id_L ∅ (∪)). split; [|split].
    + split; [intros [x Hx]; discriminate Hx | discriminate].
    + intros t' [= <-] Hne. contradiction.
    + reflexivity.
  - split; [|split].
    + split; [reflexivity|]. intros _. eexists. reflexivity.
    + intros t' [= <-] _. reflexivity.
    + reflexivity.
  - rewrite (left_id_L ∅ (∪)). split; [|split].
    + split; [intros [x Hx]; discriminate Hx | discriminate].
    + discriminate.
    + reflexivity.
Qed.

(** X19.  After [logout()] no token and no user are stored, whatever was
    stored before: [isAuthenticated()] is false, [getUser()] is null,
    [request] sends no [Authorization] header; the other keys of the storage
    are untouched. *)
Theorem logout_forgets (JSON_parse : string → option Json) ls :
  getToken (logout ls) = None
  ∧ isAuthenticated (logout ls) = false
  ∧ getUser JSON_parse (logout ls) = JNull
  ∧ request_headers (logout ls) None !! "Authorization" = None
  ∧ (∀ k, k ≠ TOKEN_KEY → k ≠ USER_KEY → logout ls !! k = ls !! k).
Proof.
  assert (getToken (logout ls) = None) as Ht.
  { unfold getToken, logout, removeUser, removeToken.
    rewrite lookup_delete_ne by discriminate. apply lookup_delete_eq. }
  split; [exact Ht|]. split; [|split; [|split]].
  - unfold isAuthenticated. now rewrite Ht.
  - unfold getUser, logout, removeUser. now rewrite lookup_delete_eq.
  - unfold request_headers. rewrite Ht. reflexivity.
  - intros k H1 H2. unfold logout, removeUser, removeToken.
    now rewrite !lookup_delete_ne by congruence.
Qed.

(** X20.  [setToken] then [getToken] gives the token back, and the stored
    user is not touched; but [isAuthenticated()] holds afterwards only for a
    token that is not the empty string. *)
Theorem setToken_getToken (JSON_parse : string → option Json) token ls :
  getToken (setToken token ls) = Some token
  ∧ getUser JSON_parse (setToken token ls) = getUser JSON_parse ls
  ∧ (isAuthenticated (setToken token ls) = true ↔ token ≠ "").
Proof.
  assert (getToken (setToken token ls) = Some token) as Ht
    by apply lookup_insert_eq.
  split; [exact Ht|]. split.
  - unfold getUser, setToken. now rewrite lookup_insert_ne by discriminate.
  - rewrite isAuthenticated_spec, Ht. split.
    + now intros (t & [= <-] & Hne).
    + intros Hne. eauto.
Qed.

End Tokens.

(** * Properties of the panels *)

Section Panels.

Implicit Types (σ : Session) (arrivals : list Arrival) (pid : Z).

Lemma deadMap_is_Some (ds : list DeathData.t) (d : DeathData.t) :
  d ∈ ds → is_Some (deadMap ds !! DeathData.player_id d).
Proof.
  unfold deadMap. induction ds as [|d' ds IH] using rev_ind.
  - intros H. now apply elem_of_nil in H.
  - intros H. rewrite fold_left_app. cbn [fold_left].
    destruct (decide (DeathData.player_id d' = DeathData.player_id d))
      as [E|Hne].
    + rewrite E, lookup_insert_eq. eauto.
    + rewrite lookup_insert_ne by exact Hne. apply IH.
      apply elem_of_app in H as [H|H]; [exact H|].
      apply list_elem_of_singleton in H. congruence.
Qed.

Lemma deadPlayers_stamp (n : Z) arrivals (d : DeathData.t) :
  death d ∈ arrivals.*2 → d ∈ deadPlayers (stamp n arrivals).
Proof.
  revert n. induction arrivals as [|[now e] arrivals IH]; intros n H.
  - now apply elem_of_nil in H.
  - cbn [fmap list_fmap snd] in H. apply elem_of_cons in H as [<-|H].
    + cbn. apply list_elem_of_here.
    + unfold deadPlayers. cbn [stamp omap list_omap].
      specialize (IH (pre_incr n) H). unfold deadPlayers in IH.
      destruct e; cbn; try exact IH. now apply list_elem_of_further.
Qed.

(** X21.  When the card of a player goes from alive to dead during a run,
    the watch page has the death to show on it: the log holds a death entry
    for this player, so [deadMap.get(pid)] is defined. *)
Theorem dead_card_has_cause arrivals σ pid :
  card_isAlive (state σ) pid = true →
  card_isAlive (state (run arrivals σ)) pid = false →
  is_Some (deadMap (deadPlayers (logs (state (run arrivals σ)))) !! pid).
Proof.
  unfold card_isAlive. intros Hbefore Hafter.
  pose proof (run_player arrivals σ (String_of pid)) as H.
  destruct (players (state σ) !! String_of pid) as [p|].
  - destruct H as (p' & Hp' & _ & Ha). rewrite Hp' in Hafter.
    rewrite Hafter, Hbefore in Ha. simpl in Ha. symmetry in Ha.
    apply negb_false_iff, existsb_exists in Ha as (e & Hin & He).
    destruct e as [| | | | | |d| | | | | | |]; try discriminate He.
    apply bool_decide_eq_true, (inj pretty) in He.
    rewrite run_logs. unfold deadPlayers. rewrite omap_app.
    rewrite <- He.
    apply deadMap_is_Some, elem_of_app. right.
    apply deadPlayers_stamp. now apply list_elem_of_In.
  - rewrite H in Hafter. discriminate.
Qed.

(** X22.  Opening the latest round in the timeline keeps the panels that
    were open, in their order, makes the latest one open, and does nothing
    when it is open already. *)
Theorem open_last_once (lastKey : string) (prev : list string) :
  (lastKey ∈ open_last lastKey prev)
  ∧ prev `prefix_of` open_last lastKey prev
  ∧ open_last lastKey (open_last lastKey prev) = open_last lastKey prev
  ∧ (NoDup prev → NoDup (open_last lastKey prev)).
Proof.
  unfold open_last. destruct (includes prev lastKey) eqn:E.
  - rewrite E. apply includes_spec in E. repeat split; auto.
  - assert (lastKey ∉ prev) as Hn
      by (intros H; apply includes_spec in H; congruence).
    assert (includes (prev ++ [lastKey]) lastKey = true) as ->.
    { apply includes_spec, elem_of_app. right. apply list_elem_of_here. }
    split; [apply elem_of_app; right; apply list_elem_of_here|].
    split; [now apply prefix_app_r|]. split; [reflexivity|].
    intros Hd. apply NoDup_app. split; [exact Hd|]. split.
    + intros x Hx Hx'. apply list_elem_of_singleton in Hx'. now subst.
    + apply NoDup_singleton.
Qed.

End Panels.

(** * Unsubscribing from the transport *)

Section Unsubscribe.

Implicit Types (w : World) (h : nat) (status : ConnectionStatus).

Lemma observed_by_notify h status w :
  observed_by h (_notifyStatus status w)
  = observed_by h w
      ++ (filter (λ d, d.1 = h)
            (map (λ x, (x, status)) (statusHandlers (this w)))).*2.
Proof.
  unfold observed_by, _notifyStatus. cbn [delivered].
  now rewrite filter_app, fmap_app.
Qed.

Lemma filter_pairs_off h h' status (hs : list nat) :
  filter (λ d : nat * ConnectionStatus, d.1 = h')
    (map (λ x, (x, status)) (filter (λ x, x ≠ h) hs))
  = if decide (h' = h) then []
    else filter (λ d : nat * ConnectionStatus, d.1 = h')
           (map (λ x, (x, status)) hs).
Proof.
  induction hs as [|x hs IH]; [now destruct (decide (h' = h))|].
  destruct (decide (x = h)) as [->|Hx].
  - rewrite filter_cons_False by (intros H; now apply H).
    rewrite IH. destruct (decide (h' = h)) as [->|Hh]; [reflexivity|].
    cbn [map]. rewrite filter_cons_False by (cbn; congruence). reflexivity.
  - rewrite filter_cons_True by exact Hx. cbn [map].
    destruct (decide (x = h')) as [->|Hx'].
    + rewrite filter_cons_True by reflexivity. rewrite IH.
      destruct (decide (h' = h)) as [->|Hh]; [contradiction|].
      rewrite filter_cons_True by reflexivity. reflexivity.
    + rewrite filter_cons_False by (cbn; congruence). rewrite IH.
      destruct (decide (h' = h)) as [->|Hh]; [reflexivity|].
      rewrite filter_cons_False by (cbn; congruence). reflexivity.
Qed.

(** X23.  After a status handler has unsubscribed, no status reaches it any
    more, however often it had subscribed, and every other handler is told
    the statuses as before. *)
Theorem unsubscribed_is_silent h h' status w :
  observed_by h (_notifyStatus status (offStatus h w)) = observed_by h w
  ∧ (h' ≠ h →
     observed_by h' (_notifyStatus status (offStatus h w))
     = observed_by h' (_notifyStatus status w)).
Proof.
  rewrite !observed_by_notify. unfold offStatus.
  cbn [this statusHandlers delivered]. split.
  - rewrite (filter_pairs_off h h). rewrite decide_True by reflexivity.
    cbn. now rewrite app_nil_r.
  - intros Hne. rewrite (filter_pairs_off h h').
    rewrite decide_False by exact Hne. reflexivity.
Qed.

End Unsubscribe.

(** * The further statements at concrete inputs *)

Lemma sample_marks_agree : marks_agree (state sample_session).
Proof.
  intros k p Hk Hs. exists 2. split; [reflexivity|].
  change (players (state sample_session))
    with (<["2" := sample_player true true]>
            (<["7" := sample_player true false]>
               (<["9" := sample_player true false]>
                  (∅ : gmap string PlayerInfo.t)))) in Hk.
  destruct (decide (k = "2")) as [->|H2]; [reflexivity|].
  rewrite lookup_insert_ne in Hk by congruence.
  destruct (decide (k = "7")) as [->|H7].
  { rewrite lookup_insert_eq in Hk. injection Hk as <-. discriminate Hs. }
  rewrite lookup_insert_ne in Hk by congruence.
  destruct (decide (k = "9")) as [->|H9].
  { rewrite lookup_insert_eq in Hk. injection Hk as <-. discriminate Hs. }
  rewrite lookup_insert_ne, lookup_empty in Hk by congruence. discriminate.
Qed.

(** The death of actor 7 among other events: actor 7 is dead afterwards,
    actor 9 is not. *)
Lemma alive_until_death_witness :
  let arrivals :=
    [ (1, sample_speech 9); (2, death (DeathData.mk 7 "vote_exile" None));
      (3, sample_speech 2) ] in
  players (state sample_session) !! "7" = Some (sample_player true false)
  ∧ ∃ p', players (state (run arrivals sample_session)) !! "7" = Some p'
          ∧ PlayerInfo.is_alive p' = false.
Proof.
  intros arrivals.
  assert (players (state sample_session) !! "7"
          = Some (sample_player true false)) as H by reflexivity.
  split; [exact H|].
  exact (alive_until_death arrivals sample_session "7" _ H).
Defined.

(** A transfer of the badge to actor 7 keeps the marks and the field in
    agreement. *)
Lemma sheriff_marks_agree_witness :
  marks_agree (state sample_session)
  ∧ marks_agree
      (state (run [ (1, sheriff_election
                          (JObject [("phase", JString "badge_transferred");
                                    ("to", JNumber 7)])) ]
                sample_session)).
Proof.
  split; [exact sample_marks_agree|].
  exact (proj1 sheriff_marks_agree _ sample_session sample_marks_agree).
Defined.

(** After the transfer to actor 7 the ribbon is on card 7. *)
Lemma card_isSheriff_unique_witness :
  let arrivals :=
    [ (1, sheriff_election
            (JObject [("phase", JString "badge_transferred");
                      ("to", JNumber 7)])) ] in
  marks_agree (state sample_session)
  ∧ sheriff (state (run arrivals sample_session)) = Some 7
  ∧ card_isSheriff (state (run arrivals sample_session)) 7 = true.
Proof.
  intros arrivals. split; [exact sample_marks_agree|].
  split; [reflexivity|].
  apply (card_isSheriff_unique arrivals sample_session 7 sample_marks_agree).
  reflexivity.
Defined.

(** The game ends, then a phase change arrives: the winner stays. *)
Lemma winner_is_kept_witness :
  let a2 := [ (2, phase_change (PhaseChangeData.mk "GAME_END" None)) ] in
  forallb (λ e, negb (is_game_end e)) a2.*2 = true
  ∧ GameUIState.winner
      (state (run ([ (0, sample_speech 3) ]
                   ++ (1, game_end (GameEndData.mk "wolves" 4)) :: a2)
                sample_session))
    = Some "wolves".
Proof.
  intros a2. split; [reflexivity|].
  exact (proj2 winner_is_kept [ (0, sample_speech 3) ] 1
           (GameEndData.mk "wolves" 4) a2 sample_session eq_refl).
Defined.

(** A pause, then a speech: the flag stays set. *)
Lemma paused_follows_control_witness :
  let a2 := [ (2, sample_speech 3) ] in
  forallb (λ e, negb (is_control e)) a2.*2 = true
  ∧ GameUIState.paused
      (state (run ([] ++ (1, control (GameControlData.mk "paused")) :: a2)
                sample_session))
    = true.
Proof.
  intros a2. split; [reflexivity|].
  exact (proj2 paused_follows_control [] 1 (GameControlData.mk "paused") a2
           sample_session eq_refl).
Defined.

(** Wolves 2 and 9 start thinking, a phase change arrives, the timer of
    actor 2 expires: every thinking actor still has a timer. *)
Lemma thinking_is_backed_witness :
  let l :=
    [ got (1, ai_thinking (AIThinkingData.mk None (Some [2; 9]) "wolf"));
      got (2, phase_change (PhaseChangeData.mk "DAY_PHASE" None));
      timed_out 2 ] in
  backed initial_session ∧ backed (steps l initial_session).
Proof.
  intros l.
  assert (backed initial_session) as H
    by (intros id Hid; now apply elem_of_nil in Hid).
  split; [exact H|]. exact (thinking_is_backed l initial_session H).
Defined.

Lemma wolves_backed : backed wolves_session.
Proof.
  intros id Hid. change (id ∈ [2; 9]) in Hid.
  change (id ∈ (∅ ∪ list_to_set [2; 9] : gset Z)).
  apply elem_of_union. right. now apply elem_of_list_to_set.
Qed.

Lemma wolves_timers ids :
  ids = [2; 9] ∨ ids = [9; 2] →
  ids ≡ₚ elements (thinkingTimersRef wolves_session).
Proof.
  intros Hids.
  assert (elements (thinkingTimersRef wolves_session) ≡ₚ [2; 9]) as ->.
  { change (elements (∅ ∪ list_to_set [2; 9] : gset Z) ≡ₚ [2; 9]).
    rewrite union_empty_l_L. apply elements_list_to_set.
    apply NoDup_cons. split; [|apply NoDup_singleton].
    intros H. apply list_elem_of_singleton in H. discriminate H. }
  destruct Hids as [->| ->]; [reflexivity | apply perm_swap].
Qed.

(** Actors 2 and 9 are thinking; whether the timer of 2 or the timer of 9
    expires first, nobody is thinking afterwards and no timer is left. *)
Lemma expiry_clears_all_witness :
  backed wolves_session
  ∧ thinkingPlayers (state wolves_session) = [2; 9]
  ∧ [2; 9] ≡ₚ elements (thinkingTimersRef wolves_session)
  ∧ [9; 2] ≡ₚ elements (thinkingTimersRef wolves_session)
  ∧ thinkingPlayers (state (expire [2; 9] wolves_session)) = []
  ∧ thinkingPlayers (state (expire [9; 2] wolves_session)) = []
  ∧ thinkingTimersRef (expire [9; 2] wolves_session) = ∅.
Proof.
  pose proof (wolves_timers [2; 9] (or_introl eq_refl)) as H1.
  pose proof (wolves_timers [9; 2] (or_intror eq_refl)) as H2.
  split; [exact wolves_backed|]. split; [reflexivity|].
  split; [exact H1|]. split; [exact H2|].
  split; [exact (proj1 (expiry_clears_all wolves_session [2; 9]
                          wolves_backed H1))|].
  exact (expiry_clears_all wolves_session [9; 2] wolves_backed H2).
Defined.

(** Two speeches before the game starts: one segment, round 0. *)
Lemma groupLogsByRound_pregame_witness :
  let L := map sample_log [ sample_speech 1; sample_speech 2 ] in
  L ≠ [] ∧ Forall (λ l, is_night l = false) L
  ∧ groupLogsByRound L = [RoundGroup.mk 0 [] L].
Proof.
  intros L.
  assert (L ≠ []) as Hne by discriminate.
  assert (Forall (λ l, is_night l = false) L) as HL
    by (repeat constructor).
  split; [exact Hne|]. split; [exact HL|].
  exact (groupLogsByRound_pregame L Hne HL).
Defined.

(** A night with a seer action and a wolf discussion, then the day. *)
Lemma nightActions_match_timeline_witness :
  let arrivals :=
    [ (1, phase_change (PhaseChangeData.mk "NIGHT_PHASE" (Some 1)));
      (2, sample_night_action "seer");
      (3, wolf_discussion (WolfDiscussionData.mk 1 4 6 "..." None));
      (4, phase_change (PhaseChangeData.mk "DAY_PHASE" (Some 1))) ] in
  night_actions_in_step (state initial_session)
  ∧ ∃ g,
      last (groupLogsByRound (logs (state (run arrivals initial_session))))
      = Some g
      ∧ nightActions (state (run arrivals initial_session))
        = extractNightActions (RoundGroup.nightLogs g)
            ++ extractNightActions (RoundGroup.dayLogs g).
Proof.
  intros arrivals.
  assert (night_actions_in_step (state initial_session)) as H by reflexivity.
  split; [exact H|].
  destruct (last (groupLogsByRound
                    (logs (state (run arrivals initial_session)))))
    as [g|] eqn:E; [|vm_compute in E; discriminate E].
  exists g. split; [reflexivity|].
  exact (nightActions_match_timeline arrivals initial_session g H E).
Defined.

(** The basic round scenario, when a third night begins. *)
Lemma groupLogsByRound_grows_witness :
  let log :=
    sample_log (phase_change (PhaseChangeData.mk "NIGHT_PHASE" None)) in
  basic_rounds_log ≠ [] ∧ night_payload log = Some None
  ∧ ∃ n, groupLogsByRound (basic_rounds_log ++ [log])
         = groupLogsByRound basic_rounds_log ++ [RoundGroup.mk n [log] []].
Proof.
  intros log.
  assert (basic_rounds_log ≠ []) as Hne by discriminate.
  assert (night_payload log = Some None) as Hn by reflexivity.
  split; [exact Hne|]. split; [exact Hn|].
  exact (proj1 (proj2 groupLogsByRound_grows) basic_rounds_log log None Hne Hn).
Defined.

(** The reconnect scenario, closed by the cleanup. *)
Lemma statuses_follow_the_machine_witness :
  let before := [socket_opened 0; socket_closed 0; timeout_elapsed 1] in
  let after := [socket_closed 1] in
  forallb is_task before = true ∧ forallb is_task after = true
  ∧ ∃ w,
      acts (hook_usage 0 before after) (new_GameWebSocket "g1") = Some w
      ∧ ∃ rest,
          observed_by 0 w = connecting :: rest
          ∧ chained (connecting :: rest) = true.
Proof.
  intros before after. split; [reflexivity|]. split; [reflexivity|].
  destruct (acts (hook_usage 0 before after) (new_GameWebSocket "g1"))
    as [w|] eqn:E; [|vm_compute in E; discriminate E].
  exists w. split; [reflexivity|].
  exact (statuses_follow_the_machine "g1" 0 before after w
           eq_refl eq_refl E).
Defined.

(** After a drop and a retry at most one socket is alive. *)
Lemma one_connection_at_a_time_witness :
  let before := [socket_opened 0; socket_closed 0; timeout_elapsed 1] in
  forallb is_task before = true
  ∧ ∃ w1,
      acts (call_onStatus 0 :: call_connect :: before)
        (new_GameWebSocket "g1") = Some w1
      ∧ ∀ j k sj sk,
          sockets w1 !! j = Some sj → sockets w1 !! k = Some sk →
          sj ≠ CLOSED → sk ≠ CLOSED → j = k.
Proof.
  intros before. split; [reflexivity|].
  destruct (acts (call_onStatus 0 :: call_connect :: before)
              (new_GameWebSocket "g1")) as [w1|] eqn:E;
    [|vm_compute in E; discriminate E].
  exists w1. split; [reflexivity|].
  exact (proj1 (one_connection_at_a_time "g1" 0 before w1 eq_refl E)).
Defined.

(** While the socket is open a pause goes out; once the server has started
    the closing handshake it does not, though the status is still connected;
    after the cleanup it does not. *)
Lemma send_only_when_connected_witness :
  let before := [socket_opened 0] in
  forallb is_task before = true
  ∧ ∃ w1,
      acts (call_onStatus 0 :: call_connect :: before)
        (new_GameWebSocket "g1") = Some w1
      ∧ is_Some (pause w1)
      ∧ (∃ w2, act (socket_closing 0) w1 = Some w2
               ∧ last (notified w2) = Some connected
               ∧ pause w2 = None)
      ∧ ∀ w, acts [call_disconnect; socket_closed 0] w1 = Some w →
             pause w = None.
Proof.
  intros before. split; [reflexivity|].
  destruct (acts (call_onStatus 0 :: call_connect :: before)
              (new_GameWebSocket "g1")) as [w1|] eqn:E;
    [|vm_compute in E; discriminate E].
  exists w1. split; [reflexivity|].
  destruct (send_only_when_connected "g1" 0 before w1 "game.pause" JUndefined
              eq_refl E) as (Hs & _ & Hc & Ha).
  assert (last (notified w1) = Some connected) as Hl
    by (pose proof E as Ev; vm_compute in Ev; injection Ev as <-;
        reflexivity).
  split; [|split].
  - apply Hs. split; [exact Hl|]. exists 0%nat.
    pose proof E as Ev. vm_compute in Ev. injection Ev as <-.
    split; [reflexivity | discriminate].
  - destruct (act (socket_closing 0) w1) as [w2|] eqn:E2.
    + exists w2. split; [reflexivity|]. exact (Hc 0%nat w2 Hl E2).
    + pose proof E as Ev. vm_compute in Ev. injection Ev as <-.
      vm_compute in E2. discriminate E2.
  - intros w Hw. exact (Ha [socket_closed 0] w eq_refl Hw).
Defined.

(** A wolf discussion shows in the "wolf" tab and not in the "seer" tab. *)
Lemma wolf_discussion_in_wolf_tab_witness :
  let data := WolfDiscussionData.mk 1 4 6 "..." None in
  ("wolf" ∈ CHANNEL_keys) ∧ ("seer" ∈ CHANNEL_keys)
  ∧ getChannelActions
      (nightActions (state (onEvent 1 (wolf_discussion data) initial_session)))
      "wolf"
    = [wolf_night_action data]
  ∧ getChannelActions
      (nightActions (state (onEvent 1 (wolf_discussion data) initial_session)))
      "seer"
    = [].
Proof.
  intros data.
  assert ("wolf" ∈ CHANNEL_keys) as Hw by (apply includes_spec; reflexivity).
  assert ("seer" ∈ CHANNEL_keys) as Hs by (apply includes_spec; reflexivity).
  split; [exact Hw|]. split; [exact Hs|]. split.
  - exact (wolf_discussion_in_wolf_tab 1 data initial_session "wolf" Hw).
  - exact (wolf_discussion_in_wolf_tab 1 data initial_session "seer" Hs).
Defined.

(** A stored token is sent as a bearer token. *)
Lemma request_headers_follow_token_witness :
  let ls := setToken "abc" ∅ in
  getToken ls = Some "abc" ∧ "abc" ≠ ""
  ∧ request_headers ls None !! "Authorization" = Some "Bearer abc".
Proof.
  intros ls.
  assert (getToken ls = Some "abc") as H by reflexivity.
  assert ("abc" ≠ "") as Hne by discriminate.
  split; [exact H|]. split; [exact Hne|].
  exact (proj1 (proj2 (request_headers_follow_token ls)) "abc" H Hne).
Defined.

(** Logging out keeps what other code stored. *)
Lemma logout_forgets_witness :
  let ls : gmap string string :=
    <["theme" := "dark"]> (setToken "abc" ∅) in
  "theme" ≠ TOKEN_KEY ∧ "theme" ≠ USER_KEY
  ∧ logout ls !! "theme" = Some "dark".
Proof.
  intros ls.
  assert ("theme" ≠ TOKEN_KEY) as H1 by discriminate.
  assert ("theme" ≠ USER_KEY) as H2 by discriminate.
  split; [exact H1|]. split; [exact H2|].
  destruct (logout_forgets (λ _, None) ls) as (_ & _ & _ & _ & H).
  rewrite (H "theme" H1 H2). reflexivity.
Defined.

(** Actor 7 dies by a vote: the card has the death to show. *)
Lemma dead_card_has_cause_witness :
  let arrivals := [ (2, death (DeathData.mk 7 "vote_exile" None)) ] in
  card_isAlive (state sample_session) 7 = true
  ∧ card_isAlive (state (run arrivals sample_session)) 7 = false
  ∧ is_Some
      (deadMap (deadPlayers (logs (state (run arrivals sample_session))))
       !! 7).
Proof.
  intros arrivals.
  assert (card_isAlive (state sample_session) 7 = true) as H1
    by (vm_compute; reflexivity).
  assert (card_isAlive (state (run arrivals sample_session)) 7 = false)
    as H2 by (vm_compute; reflexivity).
  split; [exact H1|]. split; [exact H2|].
  exact (dead_card_has_cause arrivals sample_session 7 H1 H2).
Defined.

(** A second subscriber keeps hearing after the first has left. *)
Lemma unsubscribed_is_silent_witness :
  let w := onStatus 1 (onStatus 0 (new_GameWebSocket "g1")) in
  1%nat ≠ 0%nat
  ∧ observed_by 1 (_notifyStatus connecting (offStatus 0 w)) = [connecting]
  ∧ observed_by 0 (_notifyStatus connecting (offStatus 0 w)) = [].
Proof.
  intros w. assert (1%nat ≠ 0%nat) as H by discriminate.
  split; [exact H|].
  destruct (unsubscribed_is_silent 0 1 connecting w) as [H0 H1].
  split.
  - rewrite (H1 H). reflexivity.
  - rewrite H0. reflexivity.
Defined.
